(** * Query reflection: codec tree to TypeScript signature

    A shallow embedding of [packages/driver/src/reflection/analyzeQuery.ts]:
    the cardinality wrapper [applyCardinalityToTsType], the recursive
    descriptor walker [walkCodec] and the orchestrating [analyzeQuery].

    Strings are byte strings (UTF-8), signatures are built by concatenation
    exactly as the template literals of the source do.  The [imports]
    accumulator is the one mutable object of the walk; it is threaded as
    explicit state, and an exception leaves the state it was raised in. *)

From Stdlib Require Import String Ascii List Bool Arith NArith Lia ListSet.
From Stdlib Require Import DecimalString.
Import ListNotations.
Local Open Scope string_scope.
Set Warnings "-register-all".

(** ** Characters the source writes as escapes *)

Definition dquote : string := String (ascii_of_nat 34) EmptyString.
Definition backslash : string := String (ascii_of_nat 92) EmptyString.
Definition newline : string := String (ascii_of_nat 10) EmptyString.

(** ** [JSON.stringify] on a string

    ECMAScript QuoteJSONString: the value between double quotes, with the
    two-character escapes for backspace, tab, line feed, form feed, carriage
    return, the double quote and the backslash, a lower-case [\u00XX] for the
    other control characters, and every other unit unchanged.  (Lone
    surrogates, the remaining case of the standard, do not occur in a
    well-formed UTF-8 string.) *)

Definition hexDigit (n : nat) : string :=
  String (nth n (list_ascii_of_string "0123456789abcdef") "0"%char) EmptyString.

Definition quoteJSONChar (c : ascii) : string :=
  let n := nat_of_ascii c in
  if (n =? 8)%nat then backslash ++ "b"
  else if (n =? 9)%nat then backslash ++ "t"
  else if (n =? 10)%nat then backslash ++ "n"
  else if (n =? 12)%nat then backslash ++ "f"
  else if (n =? 13)%nat then backslash ++ "r"
  else if (n =? 34)%nat then backslash ++ dquote
  else if (n =? 92)%nat then backslash ++ backslash
  else if (n <? 32)%nat then backslash ++ "u00" ++ hexDigit (n / 16) ++ hexDigit (n mod 16)
  else String c EmptyString.

Fixpoint quoteJSONChars (s : string) : string :=
  match s with
  | EmptyString => EmptyString
  | String c rest => quoteJSONChar c ++ quoteJSONChars rest
  end.

Definition JSON_stringify (s : string) : string :=
  dquote ++ quoteJSONChars s ++ dquote.

(** A character that [JSON.stringify] copies as it is. *)
Definition plainChar (c : ascii) : bool :=
  let n := nat_of_ascii c in
  negb (n <? 32)%nat && negb (n =? 34)%nat && negb (n =? 92)%nat.

Fixpoint plainString (s : string) : bool :=
  match s with
  | EmptyString => true
  | String c rest => plainChar c && plainString rest
  end.

(** ** Cardinality

    The four tags the source names ([ONE], [AT_MOST_ONE], [MANY],
    [AT_LEAST_ONE]; [codecs/consts] and the [Cardinality] enum of [ifaces]
    carry the same numbers), and [OtherCardinality] for any number besides
    those four that the numeric enum holds at run time. *)

Inductive Cardinality : Type :=
| ONE
| AT_MOST_ONE
| MANY
| AT_LEAST_ONE
| OtherCardinality (value : N).

(** [field.cardinality === MANY || field.cardinality === AT_LEAST_ONE] *)
Definition isMulti (c : Cardinality) : bool :=
  match c with
  | MANY | AT_LEAST_ONE => true
  | _ => false
  end.

(** [field.cardinality === AT_MOST_ONE] *)
Definition isAtMostOne (c : Cardinality) : bool :=
  match c with
  | AT_MOST_ONE => true
  | _ => false
  end.

(** ** Exceptions and completions *)

Inductive Exception : Type :=
| Error (message : string)
| TypeError (message : string).

Inductive Completion (A : Type) : Type :=
| Return (value : A)
| Throw (exn : Exception).
Arguments Return {A} value.
Arguments Throw {A} exn.

(** ** The cardinality wrapper (source lines 74-89) *)

Definition applyCardinalityToTsType (type : string) (cardinality : Cardinality)
  : Completion string :=
  match cardinality with
  | MANY => Return (type ++ "[]")
  | ONE => Return type
  | AT_MOST_ONE => Return (type ++ " | null")
  | AT_LEAST_ONE => Return ("[(" ++ type ++ "), ...(" ++ type ++ ")[]]")
  | OtherCardinality value =>
      Throw (Error ("unexpected cardinality: "
                    ++ NilZero.string_of_uint (N.to_uint value)))
  end.

(** ** The imports accumulator: a JavaScript [Set<string>]

    Insertion-ordered and free of duplicates; [add] appends a name that is
    not yet a member and leaves the set alone otherwise.  The source never
    calls [delete] or [clear]. *)

Definition Imports : Type := list string.

Definition newSet : Imports := [].

Definition Set_add (name : string) (imports : Imports) : Imports :=
  set_add string_dec name imports.

(** ** The walker's monad: shared [imports] state plus exceptions *)

Definition Walk (A : Type) : Type := Imports -> Completion A * Imports.

Definition ret {A} (v : A) : Walk A := fun imports => (Return v, imports).

Definition throw {A} (e : Exception) : Walk A := fun imports => (Throw e, imports).

Definition bind {A B} (m : Walk A) (k : A -> Walk B) : Walk B :=
  fun imports =>
    match m imports with
    | (Return v, imports') => k v imports'
    | (Throw e, imports') => (Throw e, imports')
    end.

(** [ctx.imports.add(name)] *)
Definition addImport (name : string) : Walk unit :=
  fun imports => (Return tt, Set_add name imports).

(** A pure step that may throw, run inside the walk. *)
Definition lift {A} (c : Completion A) : Walk A := fun imports => (c, imports).

Notation "x <- m ;; k" := (bind m (fun x => k))
  (at level 61, m at next level, right associativity).
Notation "m ;;; k" := (bind m (fun _ => k))
  (at level 61, right associativity).

(** [array.map(f)] with an effectful callback: left to right, the first
    exception aborts the loop. *)
Section MapWalk.
Context {A B : Type} (f : A -> Walk B).

Fixpoint mapWalk (l : list A) : Walk (list B) :=
  match l with
  | [] => ret []
  | x :: rest =>
      y <- f x ;;
      ys <- mapWalk rest ;;
      ret (y :: ys)
  end.
End MapWalk.

(** ** The descriptor tree

    One constructor per class the walker tests with [instanceof].  A scalar
    carries [tsType] and [importedType]; it is an [EnumCodec] when [values]
    is present.  An object keeps its field list and its sub-codec list
    apart, as [getFields()] and [getSubcodecs()] return them.  [OtherCodec]
    stands for the codec classes the walker does not name. *)

Record ObjectFieldInfo : Type := mkField {
  name : string;
  cardinality : Cardinality
}.

Inductive Codec : Type :=
| NullCodec
| ScalarCodec (tsType : string) (importedType : bool) (values : option (list string))
| ObjectCodec (fields : list ObjectFieldInfo) (subCodecs : list Codec)
| NamedTupleCodec (names : list string) (subCodecs : list Codec)
| ArrayCodec (subCodec : Codec)
| TupleCodec (subCodecs : list Codec)
| RangeCodec (subCodec : Codec)
| MultiRangeCodec (subCodec : Codec)
| SetCodec (subCodec : Codec)
| OtherCodec (tag : string).

(** [codec instanceof ScalarCodec] *)
Definition isScalar (codec : Codec) : bool :=
  match codec with
  | ScalarCodec _ _ _ => true
  | _ => false
  end.

(** [codec instanceof SetCodec] *)
Definition isSet (codec : Codec) : bool :=
  match codec with
  | SetCodec _ => true
  | _ => false
  end.

(** ** The generation context

    [imports] is the state of [Walk]; the other three members are values,
    copied by [{ ...ctx, indent: ... }]. *)

Record Ctx : Type := mkCtx {
  indent : string;
  optionalNulls : bool;
  readonly : bool
}.

(** [{ ...ctx, indent: ctx.indent + "  " }] *)
Definition deeper (ctx : Ctx) : Ctx :=
  {| indent := indent ctx ++ "  ";
     optionalNulls := optionalNulls ctx;
     readonly := readonly ctx |}.

(** The message of the [TypeError] raised by [codec.getKind()] when [codec]
    is [undefined]; its wording is the engine's. *)
Definition undefinedCodecMessage : string :=
  "Cannot read properties of undefined (reading 'getKind')".

(** ** The object arm's per-field callback (source lines 122-138) *)

Section ObjectShape.
Variable walk : Codec -> Ctx -> Walk string.
Variable ctx : Ctx.

(** The template literal of lines 132-137, for the sub-codec the walk
    recurses into. *)
Definition fieldLine (field : ObjectFieldInfo) (subCodec : Codec) : Walk string :=
  type <- walk subCodec (deeper ctx) ;;
  wrapped <- lift (applyCardinalityToTsType type (cardinality field)) ;;
  ret (indent ctx ++ "  " ++ JSON_stringify (name field)
       ++ (if optionalNulls ctx && isAtMostOne (cardinality field) then "?" else "")
       ++ ": " ++ wrapped ++ ";").

Definition fieldEntry (field : ObjectFieldInfo) (subCodec : Codec) : Walk string :=
  match subCodec with
  | SetCodec inner =>
      if isMulti (cardinality field)
      then fieldLine field inner
      else throw (Error "subcodec is SetCodec, but upper cardinality is one")
  | _ => fieldLine field subCodec
  end.

(** [fields.map((field, i) => ... subCodecs[i] ...)]: field [i] is paired
    with sub-codec [i]; past the end of [subCodecs] the lookup is
    [undefined], which no [instanceof] test accepts, so the recursive call
    ends in [codec.getKind()] on [undefined]. *)
Fixpoint mapFields (subCodecs : list Codec) (fields : list ObjectFieldInfo)
  : Walk (list string) :=
  match fields with
  | [] => ret []
  | field :: fields' =>
      match subCodecs with
      | [] => throw (TypeError undefinedCodecMessage)
      | subCodec :: subCodecs' =>
          line <- fieldEntry field subCodec ;;
          lines <- mapFields subCodecs' fields' ;;
          ret (line :: lines)
      end
  end.

Definition objectShape (fields : list ObjectFieldInfo) (subCodecs : list Codec)
  : Walk string :=
  lines <- mapFields subCodecs fields ;;
  ret ("{" ++ newline ++ String.concat newline lines ++ newline ++ indent ctx ++ "}").
End ObjectShape.

(** ** The walker (source lines 94-171)

    [walkBody] is the body of the function with its recursive calls made
    through [walk]; [walkCodec] ties the knot. *)

Section Reflection.
(** [codec.getKind()], declared by the codec classes. *)
Variable getKind : Codec -> string.

Definition walkBody (walk : Codec -> Ctx -> Walk string)
           (codec : Codec) (ctx : Ctx) : Walk string :=
  match codec with
  | NullCodec => ret "null"
  | ScalarCodec tsType importedType (Some values) =>
      ret ("(" ++ String.concat " | " (map JSON_stringify values) ++ ")")
  | ScalarCodec tsType importedType None =>
      (if importedType then addImport tsType else ret tt) ;;;
      ret tsType
  | ObjectCodec fields subCodecs =>
      shape <- objectShape walk ctx fields subCodecs ;;
      ret (if readonly ctx then "Readonly<" ++ shape ++ ">" else shape)
  | NamedTupleCodec names subCodecs =>
      shape <- objectShape walk ctx
                 (map (fun name => mkField name ONE) names) subCodecs ;;
      ret (if readonly ctx then "Readonly<" ++ shape ++ ">" else shape)
  | ArrayCodec subCodec =>
      type <- walk subCodec ctx ;;
      ret ((if readonly ctx then "readonly " else "") ++ type ++ "[]")
  | TupleCodec subCodecs =>
      types <- mapWalk (fun subCodec => walk subCodec ctx) subCodecs ;;
      ret ((if readonly ctx then "readonly " else "")
           ++ "[" ++ String.concat ", " types ++ "]")
  | RangeCodec subCodec =>
      if isScalar subCodec
      then addImport "Range" ;;;
           type <- walk subCodec ctx ;;
           ret ("Range<" ++ type ++ ">")
      else throw (Error "expected range subtype to be scalar type")
  | MultiRangeCodec subCodec =>
      if isScalar subCodec
      then addImport "MultiRange" ;;;
           type <- walk subCodec ctx ;;
           ret ("MultiRange<" ++ type ++ ">")
      else throw (Error "expected multirange subtype to be scalar type")
  | SetCodec _ | OtherCodec _ =>
      throw (Error ("Unexpected codec kind: " ++ getKind codec))
  end.

Fixpoint walkCodec (codec : Codec) (ctx : Ctx) {struct codec} : Walk string :=
  walkBody walkCodec codec ctx.
End Reflection.

(** ** The analyzer (source lines 16-55) *)

Module QueryType.
Record t : Type := make {
  args : string;
  result : string;
  cardinality : Cardinality;
  query : string;
  imports : Imports
}.
End QueryType.

Definition argsCtx : Ctx :=
  {| indent := ""; optionalNulls := true; readonly := true |}.

Definition resultCtx : Ctx :=
  {| indent := ""; optionalNulls := false; readonly := false |}.

Section Analyzer.
Variable getKind : Codec -> string.

(** The negotiation with the server: [parseQuery] borrows a connection
    from the client's pool and returns what [_parse] resolves to, or
    rethrows. *)
Variable Client : Type.
Variable parseQuery :
  Client -> string -> Completion (Cardinality * Codec * Codec).

Definition analyzeQuery (client : Client) (query : string)
  : Completion QueryType.t :=
  match parseQuery client query with
  | Throw e => Throw e
  | Return (cardinality, inCodec, outCodec) =>
      let imports := newSet in
      match walkCodec getKind inCodec argsCtx imports with
      | (Throw e, _) => Throw e
      | (Return args, imports) =>
          match walkCodec getKind outCodec resultCtx imports with
          | (Throw e, _) => Throw e
          | (Return type, imports) =>
              match applyCardinalityToTsType type cardinality with
              | Throw e => Throw e
              | Return result =>
                  Return (QueryType.make args result cardinality query imports)
              end
          end
      end
  end.
End Analyzer.

(** An instance of [getKind] for the worked examples. *)
Definition sampleKind (codec : Codec) : string :=
  match codec with
  | NullCodec | ScalarCodec _ _ _ => "scalar"
  | ObjectCodec _ _ => "object"
  | NamedTupleCodec _ _ => "namedtuple"
  | ArrayCodec _ => "array"
  | TupleCodec _ => "tuple"
  | RangeCodec _ => "range"
  | MultiRangeCodec _ => "multirange"
  | SetCodec _ => "set"
  | OtherCodec tag => tag
  end.

(** ** Auxiliary notions for the proofs *)

(** The sub-codec a field recurses into: a [SetCodec] gives way to its
    element codec (line 130), any other codec is walked itself. *)
Definition unSet (codec : Codec) : Codec :=
  match codec with
  | SetCodec inner => inner
  | _ => codec
  end.

(** [names] added to the accumulator one after the other. *)
Definition addAll (names : list string) (imports : Imports) : Imports :=
  fold_left (fun acc name => Set_add name acc) names imports.

(** A walk step [m] completes with [r] and registers exactly [names],
    whatever the accumulator held before. *)
Definition logs {A} (m : Walk A) (r : Completion A) (names : list string) : Prop :=
  forall imports, m imports = (r, addAll names imports).

Definition writerLike {A} (m : Walk A) : Prop :=
  exists r names, logs m r names.

(** The recursive calls the walker's body makes from [codec] under [ctx],
    as pairs of sub-codec and context; a call listed here is not made when
    the body throws before it (an earlier field or element, a failed set
    or scalar test, a field past the last one). *)
Definition recursiveCalls (codec : Codec) (ctx : Ctx) : list (Codec * Ctx) :=
  match codec with
  | ObjectCodec _ subCodecs | NamedTupleCodec _ subCodecs =>
      map (fun subCodec => (unSet subCodec, deeper ctx)) subCodecs
  | ArrayCodec subCodec | RangeCodec subCodec | MultiRangeCodec subCodec =>
      [(subCodec, ctx)]
  | TupleCodec subCodecs => map (fun subCodec => (subCodec, ctx)) subCodecs
  | _ => []
  end.

(** The walk of [codec] under [ctx] reaches a call on [codec'] under
    [ctx'], at any depth. *)
Inductive reaches : Codec -> Ctx -> Codec -> Ctx -> Prop :=
| reaches_here codec ctx : reaches codec ctx codec ctx
| reaches_below codec ctx codec1 ctx1 codec' ctx' :
    In (codec1, ctx1) (recursiveCalls codec ctx) ->
    reaches codec1 ctx1 codec' ctx' ->
    reaches codec ctx codec' ctx'.

(** The immutable forms: a record inside [Readonly<...>], an array or
    tuple behind [readonly ]. *)
Definition readonlyMarked (getKind : Codec -> string)
           (codec : Codec) (ctx : Ctx) : Prop :=
  match codec with
  | ObjectCodec fields subCodecs =>
      forall imports,
        walkCodec getKind codec ctx imports
        = (shape <- objectShape (walkCodec getKind) ctx fields subCodecs ;;
           ret ("Readonly<" ++ shape ++ ">")) imports
  | NamedTupleCodec names subCodecs =>
      forall imports,
        walkCodec getKind codec ctx imports
        = (shape <- objectShape (walkCodec getKind) ctx
                      (map (fun name => mkField name ONE) names) subCodecs ;;
           ret ("Readonly<" ++ shape ++ ">")) imports
  | ArrayCodec subCodec =>
      forall imports,
        walkCodec getKind codec ctx imports
        = (type <- walkCodec getKind subCodec ctx ;;
           ret ("readonly " ++ type ++ "[]")) imports
  | TupleCodec subCodecs =>
      forall imports,
        walkCodec getKind codec ctx imports
        = (types <- mapWalk (fun subCodec => walkCodec getKind subCodec ctx)
                      subCodecs ;;
           ret ("readonly [" ++ String.concat ", " types ++ "]")) imports
  | _ => True
  end.

(** The error of line 128. *)
Definition setContractError : Exception :=
  Error "subcodec is SetCodec, but upper cardinality is one".

(** ** The negotiation (source lines 57-72)

    [parseQuery] talks to the pool, the holder and the connection, whose
    classes live elsewhere in the driver; they are taken as operations on
    an abstract [World].  [await] is sequencing: one analysis has one call
    in flight. *)

Section Negotiation.
Variable World : Type.

Definition Async (A : Type) : Type := World -> Completion A * World.

Definition andThen {A B} (m : Async A) (k : A -> Async B) : Async B :=
  fun world =>
    match m world with
    | (Return v, world') => k v world'
    | (Throw e, world') => (Throw e, world')
    end.

(** [try { body } finally { finalizer }]: the finalizer runs after the
    body however the body completes; when the finalizer throws, its
    exception replaces the body's completion. *)
Definition tryFinally {A} (body : Async A) (finalizer : Async unit) : Async A :=
  fun world =>
    match body world with
    | (completion, world') =>
        match finalizer world' with
        | (Return _, world'') => (completion, world'')
        | (Throw e, world'') => (Throw e, world'')
        end
    end.

Variables Client Pool Holder Connection Options Session OutputFormat : Type.
(** [(client as any).pool] *)
Variable pool : Client -> Pool.
(** [Options.defaults()], [Session.defaults()], [OutputFormat.BINARY] *)
Variable defaultOptions : Options.
Variable defaultSession : Session.
Variable BINARY : OutputFormat.
Variable acquireHolder : Pool -> Options -> Async Holder.
Variable _getConnection : Holder -> Async Connection.
Variable _parse :
  Connection -> string -> OutputFormat -> Cardinality -> Session ->
  Async (Cardinality * Codec * Codec).
Variable release : Holder -> Async unit.

Definition parseQuery (client : Client) (query : string)
  : Async (Cardinality * Codec * Codec) :=
  andThen (acquireHolder (pool client) defaultOptions) (fun holder =>
    tryFinally
      (andThen (_getConnection holder) (fun cxn =>
         _parse cxn query BINARY MANY defaultSession))
      (release holder)).
End Negotiation.

(** A pool for the worked examples: the world counts the holders lent
    out, every step but [_parse] succeeds, and [_parse] rejects the empty
    query. *)
Definition sampleAcquire (_ _ : unit) : Async nat unit :=
  fun lent => (Return tt, S lent).

Definition sampleConnection (_ : unit) : Async nat unit :=
  fun lent => (Return tt, lent).

Definition sampleParse (_ : unit) (query : string) (_ : unit)
           (_ : Cardinality) (_ : unit) : Async nat (Cardinality * Codec * Codec) :=
  fun lent =>
    if String.eqb query ""
    then (Throw (Error "empty query"), lent)
    else (Return (ONE, NullCodec, ScalarCodec "number" false None), lent).

Definition sampleRelease (_ : unit) : Async nat unit :=
  fun lent => (Return tt, pred lent).

Definition sampleParseQuery : unit -> string -> Async nat (Cardinality * Codec * Codec) :=
  parseQuery nat unit unit unit unit unit unit unit
    (fun _ => tt) tt tt tt sampleAcquire sampleConnection sampleParse sampleRelease.

(** ** Further notions for the proofs *)

(** A cardinality the wrapper has an arm for. *)
Definition knownCardinality (c : Cardinality) : bool :=
  match c with
  | OtherCardinality _ => false
  | _ => true
  end.

(** The descriptor trees the walker accepts: every field has a sub-codec
    and a cardinality the wrapper knows, a set stands only under a
    multi-valued field, a range is over a scalar, and no codec of an
    unnamed class is walked. *)
Section Walkable.
Variable walkable : Codec -> bool.

Definition fieldWalkable (field : ObjectFieldInfo) (subCodec : Codec) : bool :=
  match subCodec with
  | SetCodec inner => isMulti (cardinality field) && walkable inner
  | _ => walkable subCodec && knownCardinality (cardinality field)
  end.

Fixpoint fieldsWalkable (subCodecs : list Codec) (fields : list ObjectFieldInfo)
  : bool :=
  match fields with
  | [] => true
  | field :: fields' =>
      match subCodecs with
      | [] => false
      | subCodec :: subCodecs' =>
          fieldWalkable field subCodec && fieldsWalkable subCodecs' fields'
      end
  end.
End Walkable.

Fixpoint walkable (codec : Codec) : bool :=
  match codec with
  | NullCodec | ScalarCodec _ _ _ => true
  | ObjectCodec fields subCodecs => fieldsWalkable walkable subCodecs fields
  | NamedTupleCodec names subCodecs =>
      fieldsWalkable walkable subCodecs (map (fun name => mkField name ONE) names)
  | ArrayCodec subCodec => walkable subCodec
  | TupleCodec subCodecs => forallb walkable subCodecs
  | RangeCodec subCodec | MultiRangeCodec subCodec => isScalar subCodec
  | SetCodec _ | OtherCodec _ => false
  end.

(** Whether a walk step came back with a value. *)
Definition returns {A} (outcome : Completion A * Imports) : bool :=
  match fst outcome with
  | Return _ => true
  | Throw _ => false
  end.

(** Two outcomes that differ at most in the value returned: the same
    accumulator, and both a value or both the same exception. *)
Definition alike {A} (p q : Completion A * Imports) : Prop :=
  snd p = snd q /\
  match fst p, fst q with
  | Return _, Return _ => True
  | Throw e, Throw e' => e = e'
  | _, _ => False
  end.

(** The names a tree can ask for: the type of every imported plain
    scalar, and the wrapper type of every range and multirange. *)
Fixpoint importNames (codec : Codec) : list string :=
  match codec with
  | ScalarCodec tsType true None => [tsType]
  | ObjectCodec _ subCodecs | NamedTupleCodec _ subCodecs
  | TupleCodec subCodecs => flat_map importNames subCodecs
  | ArrayCodec subCodec | SetCodec subCodec => importNames subCodec
  | RangeCodec subCodec => "Range" :: importNames subCodec
  | MultiRangeCodec subCodec => "MultiRange" :: importNames subCodec
  | _ => []
  end.

(** A walk step adds to the accumulator no name outside [names]. *)
Definition addsOnly {A} (m : Walk A) (names : list string) : Prop :=
  forall imports name,
    In name (snd (m imports)) -> In name imports \/ In name names.

(** No character below the space: nothing that breaks a line. *)
Fixpoint noControl (s : string) : bool :=
  match s with
  | EmptyString => true
  | String c rest => (32 <=? nat_of_ascii c)%nat && noControl rest
  end.

(** Reading one character back from the front of a quoted string: the
    inverse of [quoteJSONChar], undefined on a bare double quote. *)
Definition hexValue (c : ascii) : option nat :=
  let n := nat_of_ascii c in
  if (48 <=? n)%nat && (n <=? 57)%nat then Some (n - 48)
  else if (97 <=? n)%nat && (n <=? 102)%nat then Some (n - 87)
  else None.

Definition unquoteFirst (s : string) : option (ascii * string) :=
  match s with
  | EmptyString => None
  | String c rest =>
      if (nat_of_ascii c =? 34)%nat then None
      else if (nat_of_ascii c =? 92)%nat then
        match rest with
        | EmptyString => None
        | String e rest' =>
            let n := nat_of_ascii e in
            if (n =? 98)%nat then Some (ascii_of_nat 8, rest')
            else if (n =? 116)%nat then Some (ascii_of_nat 9, rest')
            else if (n =? 110)%nat then Some (ascii_of_nat 10, rest')
            else if (n =? 102)%nat then Some (ascii_of_nat 12, rest')
            else if (n =? 114)%nat then Some (ascii_of_nat 13, rest')
            else if (n =? 34)%nat then Some (ascii_of_nat 34, rest')
            else if (n =? 92)%nat then Some (ascii_of_nat 92, rest')
            else
              match rest' with
              | String _ (String _ (String h (String l rest''))) =>
                  match hexValue h, hexValue l with
                  | Some hi, Some lo => Some (ascii_of_nat (16 * hi + lo), rest'')
                  | _, _ => None
                  end
              | _ => None
              end
        end
      else Some (c, rest)
  end.

(** A line of a record shape: the key of [field], the optional marker,
    and the wrapped signature of some type. *)
Definition lineOf (ctx : Ctx) (field : ObjectFieldInfo) (line : string) : Prop :=
  exists type wrapped,
    applyCardinalityToTsType type (cardinality field) = Return wrapped /\
    line = indent ctx ++ "  " ++ JSON_stringify (name field)
           ++ (if optionalNulls ctx && isAtMostOne (cardinality field)
               then "?" else "")
           ++ ": " ++ wrapped ++ ";".

(** * Proofs *)

(** ** Induction over the descriptor tree *)

Section CodecInduction.
Variable P : Codec -> Prop.
Hypothesis case_Null : P NullCodec.
Hypothesis case_Scalar : forall t i v, P (ScalarCodec t i v).
Hypothesis case_Object : forall fs cs, Forall P cs -> P (ObjectCodec fs cs).
Hypothesis case_NamedTuple : forall ns cs, Forall P cs -> P (NamedTupleCodec ns cs).
Hypothesis case_Array : forall c, P c -> P (ArrayCodec c).
Hypothesis case_Tuple : forall cs, Forall P cs -> P (TupleCodec cs).
Hypothesis case_Range : forall c, P c -> P (RangeCodec c).
Hypothesis case_MultiRange : forall c, P c -> P (MultiRangeCodec c).
Hypothesis case_Set : forall c, P c -> P (SetCodec c).
Hypothesis case_Other : forall tag, P (OtherCodec tag).

Fixpoint Codec_nested_ind (codec : Codec) : P codec :=
  let all :=
    fix all (cs : list Codec) : Forall P cs :=
      match cs with
      | [] => Forall_nil P
      | c :: cs' => Forall_cons c (Codec_nested_ind c) (all cs')
      end in
  match codec with
  | NullCodec => case_Null
  | ScalarCodec t i v => case_Scalar t i v
  | ObjectCodec fs cs => case_Object fs cs (all cs)
  | NamedTupleCodec ns cs => case_NamedTuple ns cs (all cs)
  | ArrayCodec c => case_Array c (Codec_nested_ind c)
  | TupleCodec cs => case_Tuple cs (all cs)
  | RangeCodec c => case_Range c (Codec_nested_ind c)
  | MultiRangeCodec c => case_MultiRange c (Codec_nested_ind c)
  | SetCodec c => case_Set c (Codec_nested_ind c)
  | OtherCodec tag => case_Other tag
  end.
End CodecInduction.

(** The same principle shaped after the walker: below an object the
    hypothesis is about what each field recurses into. *)
Lemma Codec_walk_ind (P : Codec -> Prop) :
  P NullCodec ->
  (forall t i v, P (ScalarCodec t i v)) ->
  (forall fs cs, Forall (fun c => P (unSet c)) cs -> P (ObjectCodec fs cs)) ->
  (forall ns cs, Forall (fun c => P (unSet c)) cs -> P (NamedTupleCodec ns cs)) ->
  (forall c, P c -> P (ArrayCodec c)) ->
  (forall cs, Forall P cs -> P (TupleCodec cs)) ->
  (forall c, P c -> P (RangeCodec c)) ->
  (forall c, P c -> P (MultiRangeCodec c)) ->
  (forall c, P c -> P (SetCodec c)) ->
  (forall tag, P (OtherCodec tag)) ->
  forall codec, P codec.
Proof.
  intros HN HS HO HNT HA HT HR HM HSet HOther codec.
  enough (H : P codec /\ P (unSet codec)) by apply H.
  induction codec using Codec_nested_ind; simpl; try (split; auto; fail).
  - split; apply HO; (eapply Forall_impl; [|eassumption]); simpl; tauto.
  - split; apply HNT; (eapply Forall_impl; [|eassumption]); simpl; tauto.
  - split; apply HA; tauto.
  - split; apply HT; (eapply Forall_impl; [|eassumption]); simpl; tauto.
  - split; apply HR; tauto.
  - split; apply HM; tauto.
  - split; [apply HSet|]; tauto.
Qed.

(** ** The accumulator only grows *)

Lemma Set_add_In (x name : string) (imports : Imports) :
  In x (Set_add name imports) <-> x = name \/ In x imports.
Proof.
  unfold Set_add. split.
  - apply set_add_elim.
  - apply set_add_intro.
Qed.

Lemma Set_add_NoDup (name : string) (imports : Imports) :
  NoDup imports -> NoDup (Set_add name imports).
Proof. apply set_add_nodup. Qed.

Lemma Set_add_member (name : string) (imports : Imports) :
  In name imports -> Set_add name imports = imports.
Proof.
  unfold Set_add.
  induction imports as [|y rest IH]; simpl; [tauto|].
  intros [->|Hin].
  - destruct (string_dec name name); congruence.
  - destruct (string_dec name y); [reflexivity|]. now rewrite IH.
Qed.

Lemma addAll_app (l1 l2 : list string) (imports : Imports) :
  addAll (l1 ++ l2) imports = addAll l2 (addAll l1 imports).
Proof. apply fold_left_app. Qed.

Lemma addAll_In (x : string) (names : list string) (imports : Imports) :
  In x (addAll names imports) <-> In x imports \/ In x names.
Proof.
  revert imports.
  induction names as [|n rest IH]; intros imports; simpl.
  - tauto.
  - fold (addAll rest (Set_add n imports)).
    rewrite IH, Set_add_In. intuition congruence.
Qed.

Lemma addAll_NoDup (names : list string) (imports : Imports) :
  NoDup imports -> NoDup (addAll names imports).
Proof.
  revert imports.
  induction names as [|n rest IH]; intros imports Hnd; simpl; [assumption|].
  apply IH, Set_add_NoDup, Hnd.
Qed.

(** ** Every walk step is a writer: its completion does not depend on the
    accumulator, and it only adds names to it *)

Lemma logs_ret {A} (v : A) : logs (ret v) (Return v) [].
Proof. intros imports. reflexivity. Qed.

Lemma logs_throw {A} (e : Exception) : logs (@throw A e) (Throw e) [].
Proof. intros imports. reflexivity. Qed.

Lemma logs_lift {A} (c : Completion A) : logs (lift c) c [].
Proof. intros imports. reflexivity. Qed.

Lemma logs_addImport (name : string) : logs (addImport name) (Return tt) [name].
Proof. intros imports. reflexivity. Qed.

Lemma logs_bind_return {A B} (m : Walk A) (k : A -> Walk B) v l1 r l2 :
  logs m (Return v) l1 -> logs (k v) r l2 -> logs (bind m k) r (l1 ++ l2).
Proof.
  intros Hm Hk imports. unfold bind.
  rewrite Hm, Hk, addAll_app. reflexivity.
Qed.

Lemma logs_bind_throw {A B} (m : Walk A) (k : A -> Walk B) e l1 :
  logs m (Throw e) l1 -> logs (bind m k) (Throw e) l1.
Proof.
  intros Hm imports. unfold bind. rewrite Hm. reflexivity.
Qed.

Lemma writerLike_ret {A} (v : A) : writerLike (ret v).
Proof. eexists _, _. apply logs_ret. Qed.

Lemma writerLike_throw {A} (e : Exception) : writerLike (@throw A e).
Proof. eexists _, _. apply logs_throw. Qed.

Lemma writerLike_lift {A} (c : Completion A) : writerLike (lift c).
Proof. eexists _, _. apply logs_lift. Qed.

Lemma writerLike_addImport (name : string) : writerLike (addImport name).
Proof. eexists _, _. apply logs_addImport. Qed.

Lemma writerLike_bind {A B} (m : Walk A) (k : A -> Walk B) :
  writerLike m -> (forall v, writerLike (k v)) -> writerLike (bind m k).
Proof.
  intros [[v|e] [l1 Hm]] Hk.
  - destruct (Hk v) as [r [l2 Hkv]].
    exists r, (l1 ++ l2)%list. eapply logs_bind_return; eassumption.
  - exists (Throw e), l1. now apply logs_bind_throw.
Qed.

Create HintDb walk.

#[local] Hint Resolve writerLike_ret writerLike_throw writerLike_lift
  writerLike_addImport : walk.

Lemma writerLike_mapWalk {A B} (f : A -> Walk B) (l : list A) :
  Forall (fun x => writerLike (f x)) l -> writerLike (mapWalk f l).
Proof.
  induction 1 as [|x rest Hx _ IH]; simpl; auto with walk.
  apply writerLike_bind; [assumption|]. intros y.
  apply writerLike_bind; [assumption|]. auto with walk.
Qed.

Section WriterShape.
Variable walk : Codec -> Ctx -> Walk string.

Lemma writerLike_fieldLine ctx field c :
  writerLike (walk c (deeper ctx)) -> writerLike (fieldLine walk ctx field c).
Proof.
  intros Hw. unfold fieldLine.
  apply writerLike_bind; [assumption|]. intros type.
  apply writerLike_bind; auto with walk.
Qed.

Lemma writerLike_fieldEntry ctx field c :
  writerLike (walk (unSet c) (deeper ctx)) ->
  writerLike (fieldEntry walk ctx field c).
Proof.
  intros Hw.
  destruct c; simpl in *; try (now apply writerLike_fieldLine).
  destruct (isMulti (cardinality field));
    [now apply writerLike_fieldLine | auto with walk].
Qed.

Lemma writerLike_mapFields ctx cs fs :
  Forall (fun c => forall ctx', writerLike (walk (unSet c) ctx')) cs ->
  writerLike (mapFields walk ctx cs fs).
Proof.
  intros Hcs. revert fs.
  induction Hcs as [|c cs' Hc _ IH]; intros [|field fs']; simpl;
    auto with walk.
  apply writerLike_bind; [apply writerLike_fieldEntry, Hc|]. intros line.
  apply writerLike_bind; [apply IH|]. auto with walk.
Qed.

Lemma writerLike_objectShape ctx fs cs :
  Forall (fun c => forall ctx', writerLike (walk (unSet c) ctx')) cs ->
  writerLike (objectShape walk ctx fs cs).
Proof.
  intros Hcs. unfold objectShape.
  apply writerLike_bind; [now apply writerLike_mapFields|]. auto with walk.
Qed.
End WriterShape.

Lemma walkCodec_unfold getKind codec ctx :
  walkCodec getKind codec ctx = walkBody getKind (walkCodec getKind) codec ctx.
Proof. destruct codec; reflexivity. Qed.

Lemma walkCodec_writerLike getKind codec :
  forall ctx, writerLike (walkCodec getKind codec ctx).
Proof.
  induction codec using Codec_walk_ind; intros ctx;
    rewrite walkCodec_unfold; simpl; auto with walk.
  - destruct v; auto with walk.
    apply writerLike_bind; [destruct i|]; auto with walk.
  - apply writerLike_bind; [now apply writerLike_objectShape|]. auto with walk.
  - apply writerLike_bind; [now apply writerLike_objectShape|]. auto with walk.
  - apply writerLike_bind; auto with walk.
  - apply writerLike_bind; auto with walk.
    apply writerLike_mapWalk. eapply Forall_impl; [|eassumption]. auto.
  - destruct (isScalar codec); auto with walk.
    apply writerLike_bind; auto with walk. intros _.
    apply writerLike_bind; auto with walk.
  - destruct (isScalar codec); auto with walk.
    apply writerLike_bind; auto with walk. intros _.
    apply writerLike_bind; auto with walk.
Qed.

(** What a walk leaves in the accumulator, read off the writer form. *)
Lemma walkCodec_imports getKind codec ctx :
  exists names,
    (forall imports,
        snd (walkCodec getKind codec ctx imports) = addAll names imports) /\
    (forall imports imports',
        fst (walkCodec getKind codec ctx imports)
        = fst (walkCodec getKind codec ctx imports')).
Proof.
  destruct (walkCodec_writerLike getKind codec ctx) as [r [names H]].
  exists names. split; intros; rewrite !H; reflexivity.
Qed.

(** ** The walk of a list stops at its first exception *)

Lemma mapWalk_app {A B} (f : A -> Walk B) (l1 l2 : list A) ys imports imports1 :
  mapWalk f l1 imports = (Return ys, imports1) ->
  mapWalk f (l1 ++ l2) imports
  = match mapWalk f l2 imports1 with
    | (Return zs, imports2) => (Return (ys ++ zs)%list, imports2)
    | (Throw e, imports2) => (Throw e, imports2)
    end.
Proof.
  revert ys imports.
  induction l1 as [|x rest IH]; intros ys imports; simpl.
  - unfold ret. intros [= <- <-].
    destruct (mapWalk f l2 imports) as [[zs|e] s]; reflexivity.
  - unfold bind, ret.
    destruct (f x imports) as [[y|e] s1]; [|discriminate].
    destruct (mapWalk f rest s1) as [[ys'|e] s2] eqn:Hrest; [|discriminate].
    intros [= <- <-].
    rewrite (IH _ _ Hrest).
    destruct (mapWalk f l2 s2) as [[zs|e] s3]; reflexivity.
Qed.

Lemma quoteJSONChars_plain (s : string) :
  plainString s = true -> quoteJSONChars s = s.
Proof.
  induction s as [|c rest IH]; simpl; [reflexivity|].
  intros H. apply andb_true_iff in H as [Hc Hrest].
  rewrite (IH Hrest). unfold plainChar in Hc. unfold quoteJSONChar.
  cbv zeta in *.
  apply andb_true_iff in Hc as [Hc H92].
  apply andb_true_iff in Hc as [H32 H34].
  apply negb_true_iff in H32, H34, H92.
  rewrite H32, H34, H92.
  apply Nat.ltb_ge in H32.
  repeat match goal with
         | |- context [(?n =? ?k)%nat] =>
             let E := fresh in
             destruct (Nat.eqb_spec n k) as [E|E]; [lia|clear E]
         end.
  reflexivity.
Qed.

(** * The claims *)

(** C3: the cardinality wrapper returns [T] for ONE, [T[]] for MANY,
    [T | null] for AT_MOST_ONE, [[(T), ...(T)[]]] for AT_LEAST_ONE, and for
    every cardinality outside these four it throws the error whose message
    is "unexpected cardinality: " followed by the number. *)
Theorem applyCardinalityToTsType_cases (T : string) :
  applyCardinalityToTsType T ONE = Return T /\
  applyCardinalityToTsType T MANY = Return (T ++ "[]") /\
  applyCardinalityToTsType T AT_MOST_ONE = Return (T ++ " | null") /\
  applyCardinalityToTsType T AT_LEAST_ONE
  = Return ("[(" ++ T ++ "), ...(" ++ T ++ ")[]]") /\
  (forall c,
      c <> ONE -> c <> MANY -> c <> AT_MOST_ONE -> c <> AT_LEAST_ONE ->
      exists value,
        c = OtherCardinality value /\
        applyCardinalityToTsType T c
        = Throw (Error ("unexpected cardinality: "
                        ++ NilZero.string_of_uint (N.to_uint value)))).
Proof.
  repeat split.
  intros [| | | |value] H1 H2 H3 H4; try congruence.
  exists value. split; reflexivity.
Qed.

Lemma applyCardinalityToTsType_cases_witness :
  applyCardinalityToTsType "string" AT_LEAST_ONE
  = Return "[(string), ...(string)[]]" /\
  applyCardinalityToTsType "string" (OtherCardinality 110)
  = Throw (Error "unexpected cardinality: 110").
Proof.
  destruct (applyCardinalityToTsType_cases "string") as (_ & _ & _ & H4 & H5).
  split; [exact H4|].
  destruct (H5 (OtherCardinality 110)) as [value [Hv H]]; try discriminate.
  injection Hv as <-. exact H.
Defined.

(** C10: an enum scalar leaves the accumulator as it found it, whatever
    its [importedType]; a plain scalar returns [tsType] and registers it
    exactly when [importedType] is set. *)
Theorem enum_scalar_registers_nothing getKind tsType importedType ctx imports :
  (forall values,
      snd (walkCodec getKind (ScalarCodec tsType importedType (Some values))
             ctx imports) = imports) /\
  walkCodec getKind (ScalarCodec tsType importedType None) ctx imports
  = (Return tsType, if importedType then Set_add tsType imports else imports).
Proof.
  split; [reflexivity|]. destruct importedType; reflexivity.
Qed.

(** A scalar always walks to a signature. *)
Lemma walkCodec_scalar getKind codec ctx imports :
  isScalar codec = true ->
  exists type imports',
    walkCodec getKind codec ctx imports = (Return type, imports') /\
    forall name, In name imports -> In name imports'.
Proof.
  destruct codec as [|t i [vs|]| | | | | | | |]; try discriminate. all: intros _.
  - eexists _, _. split; [reflexivity|auto].
  - destruct i; eexists _, _; (split; [reflexivity|]); auto.
    intros name Hin. apply Set_add_In. now right.
Qed.

(** C5: a range (multirange) over a non-scalar throws "expected range
    (multirange) subtype to be scalar type" and leaves the accumulator
    alone; over a scalar it registers "Range" ("MultiRange"), then walks
    the scalar and returns [Range<...>] ([MultiRange<...>]) around its
    signature. *)
Theorem range_walk getKind subCodec ctx imports :
  (isScalar subCodec = false ->
   walkCodec getKind (RangeCodec subCodec) ctx imports
   = (Throw (Error "expected range subtype to be scalar type"), imports) /\
   walkCodec getKind (MultiRangeCodec subCodec) ctx imports
   = (Throw (Error "expected multirange subtype to be scalar type"), imports)) /\
  (isScalar subCodec = true ->
   (exists type imports',
       walkCodec getKind subCodec ctx (Set_add "Range" imports)
       = (Return type, imports') /\
       walkCodec getKind (RangeCodec subCodec) ctx imports
       = (Return ("Range<" ++ type ++ ">"), imports') /\
       In "Range" imports') /\
   (exists type imports',
       walkCodec getKind subCodec ctx (Set_add "MultiRange" imports)
       = (Return type, imports') /\
       walkCodec getKind (MultiRangeCodec subCodec) ctx imports
       = (Return ("MultiRange<" ++ type ++ ">"), imports') /\
       In "MultiRange" imports')).
Proof.
  split; intros Hs.
  - rewrite !(walkCodec_unfold _ (RangeCodec _)),
      !(walkCodec_unfold _ (MultiRangeCodec _)).
    simpl. rewrite Hs. split; reflexivity.
  - split.
    + destruct (walkCodec_scalar getKind subCodec ctx (Set_add "Range" imports) Hs)
        as (type & imports' & Hw & Hin).
      exists type, imports'. split; [assumption|]. split.
      * rewrite (walkCodec_unfold _ (RangeCodec _)). simpl. rewrite Hs.
        unfold bind, addImport, ret. rewrite Hw. reflexivity.
      * apply Hin, Set_add_In. now left.
    + destruct (walkCodec_scalar getKind subCodec ctx
                  (Set_add "MultiRange" imports) Hs)
        as (type & imports' & Hw & Hin).
      exists type, imports'. split; [assumption|]. split.
      * rewrite (walkCodec_unfold _ (MultiRangeCodec _)). simpl. rewrite Hs.
        unfold bind, addImport, ret. rewrite Hw. reflexivity.
      * apply Hin, Set_add_In. now left.
Qed.

Lemma range_walk_witness :
  isScalar (ObjectCodec [] []) = false /\
  walkCodec sampleKind (RangeCodec (ObjectCodec [] [])) resultCtx []
  = (Throw (Error "expected range subtype to be scalar type"), []) /\
  isScalar (ScalarCodec "number" false None) = true /\
  walkCodec sampleKind (RangeCodec (ScalarCodec "number" false None)) resultCtx []
  = (Return "Range<number>", ["Range"]).
Proof.
  split; [reflexivity|]. split.
  - apply (range_walk sampleKind (ObjectCodec [] []) resultCtx []). reflexivity.
  - split; [reflexivity|].
    destruct (range_walk sampleKind (ScalarCodec "number" false None) resultCtx [])
      as [_ H].
    destruct (H eq_refl) as [(type & imports' & Hw & Hr & _) _].
    injection Hw as <- <-. exact Hr.
Defined.

(** C9, as the code has it: the walker has no arm for a set.  Walking a
    [SetCodec] throws "Unexpected codec kind: ..." and leaves the
    accumulator alone: at the top level, below an array, below a tuple once
    the elements before it are walked, and below a set that a multi-valued
    field has unwrapped.  A set directly inside a field's set never yields
    a signature.  Below a range or multirange the set is not walked: the
    scalar test rejects it with the range error. *)
Theorem set_has_no_arm getKind inner ctx imports :
  let unexpected := Error ("Unexpected codec kind: " ++ getKind (SetCodec inner)) in
  walkCodec getKind (SetCodec inner) ctx imports = (Throw unexpected, imports) /\
  walkCodec getKind (ArrayCodec (SetCodec inner)) ctx imports
  = (Throw unexpected, imports) /\
  (forall before after types imports0,
      mapWalk (fun c => walkCodec getKind c ctx) before imports0
      = (Return types, imports) ->
      walkCodec getKind (TupleCodec (before ++ SetCodec inner :: after)) ctx imports0
      = (Throw unexpected, imports)) /\
  (forall field,
      isMulti (cardinality field) = true ->
      fieldEntry (walkCodec getKind) ctx field (SetCodec (SetCodec inner)) imports
      = (Throw unexpected, imports)) /\
  (forall field fields subCodecs,
      exists e,
        walkCodec getKind
          (ObjectCodec (field :: fields) (SetCodec (SetCodec inner) :: subCodecs))
          ctx imports
        = (Throw e, imports)) /\
  walkCodec getKind (RangeCodec (SetCodec inner)) ctx imports
  = (Throw (Error "expected range subtype to be scalar type"), imports) /\
  walkCodec getKind (MultiRangeCodec (SetCodec inner)) ctx imports
  = (Throw (Error "expected multirange subtype to be scalar type"), imports).
Proof.
  intros unexpected. split; [reflexivity|]. split; [reflexivity|].
  split; [|split; [|split; [|split; reflexivity]]].
  - intros before after types imports0 Hbefore.
    rewrite walkCodec_unfold. simpl. unfold bind at 1.
    rewrite (mapWalk_app _ _ _ _ _ _ Hbefore). reflexivity.
  - intros field Hm. simpl. rewrite Hm. reflexivity.
  - intros field fields subCodecs.
    rewrite walkCodec_unfold. simpl. unfold objectShape. simpl.
    unfold bind.
    destruct (isMulti (cardinality field)); eexists; reflexivity.
Qed.

Lemma set_has_no_arm_witness :
  mapWalk (fun c => walkCodec sampleKind c argsCtx)
    [ScalarCodec "Range" true None] []
  = (Return ["Range"], ["Range"]) /\
  walkCodec sampleKind
    (TupleCodec ([ScalarCodec "Range" true None] ++ SetCodec NullCodec :: []))
    argsCtx []
  = (Throw (Error "Unexpected codec kind: set"), ["Range"]) /\
  isMulti (cardinality (mkField "tags" MANY)) = true /\
  fieldEntry (walkCodec sampleKind) argsCtx (mkField "tags" MANY)
    (SetCodec (SetCodec NullCodec)) ["Range"]
  = (Throw (Error "Unexpected codec kind: set"), ["Range"]).
Proof.
  destruct (set_has_no_arm sampleKind NullCodec argsCtx ["Range"])
    as (_ & _ & Htuple & Hfield & _).
  split; [reflexivity|]. split; [apply Htuple with (types := ["Range"]); reflexivity|].
  split; [reflexivity|]. apply Hfield. reflexivity.
Defined.

(** ** Fields *)

Lemma append_assoc (a b c : string) : (a ++ b) ++ c = a ++ (b ++ c).
Proof. induction a as [|x a IH]; simpl; [reflexivity | now rewrite IH]. Qed.

Lemma isMulti_true (c : Cardinality) :
  isMulti c = true <-> c = MANY \/ c = AT_LEAST_ONE.
Proof. destruct c; simpl; intuition congruence. Qed.

Lemma isMulti_false (c : Cardinality) :
  isMulti c = false <-> c <> MANY /\ c <> AT_LEAST_ONE.
Proof. destruct c; simpl; intuition congruence. Qed.

Lemma fieldEntry_not_set walk ctx field subCodec :
  isSet subCodec = false ->
  fieldEntry walk ctx field subCodec = fieldLine walk ctx field subCodec.
Proof. destruct subCodec; simpl; congruence. Qed.

Lemma fieldLine_return walk ctx field subCodec imports line imports' :
  fieldLine walk ctx field subCodec imports = (Return line, imports') <->
  exists type wrapped,
    walk subCodec (deeper ctx) imports = (Return type, imports') /\
    applyCardinalityToTsType type (cardinality field) = Return wrapped /\
    line = indent ctx ++ "  " ++ JSON_stringify (name field)
           ++ (if optionalNulls ctx && isAtMostOne (cardinality field)
               then "?" else "")
           ++ ": " ++ wrapped ++ ";".
Proof.
  unfold fieldLine, bind, lift, ret.
  destruct (walk subCodec (deeper ctx) imports) as [[type|e] s1].
  - destruct (applyCardinalityToTsType type (cardinality field))
      as [wrapped|e] eqn:Hwrap.
    + split.
      * intros [= <- <-]. now exists type, wrapped.
      * intros (type' & wrapped' & [= <- <-] & Hw & ->).
        rewrite Hwrap in Hw. injection Hw as <-. reflexivity.
    + split; [discriminate|].
      intros (type' & wrapped' & [= <- <-] & Hw & _).
      rewrite Hwrap in Hw. discriminate.
  - split; [discriminate|]. intros (? & ? & [=] & _).
Qed.

Lemma mapFields_app walk ctx cs1 cs2 fs1 fs2 lines imports imports1 :
  length fs1 = length cs1 ->
  mapFields walk ctx cs1 fs1 imports = (Return lines, imports1) ->
  mapFields walk ctx (cs1 ++ cs2) (fs1 ++ fs2) imports
  = match mapFields walk ctx cs2 fs2 imports1 with
    | (Return rest, imports2) => (Return (lines ++ rest)%list, imports2)
    | (Throw e, imports2) => (Throw e, imports2)
    end.
Proof.
  revert cs1 lines imports.
  induction fs1 as [|field fs1' IH]; intros [|c cs1'] lines imports Hlen;
    simpl in Hlen; try discriminate.
  - simpl. unfold ret. intros [= <- <-].
    destruct (mapFields walk ctx cs2 fs2 imports) as [[rest|e] s]; reflexivity.
  - simpl. unfold bind, ret.
    destruct (fieldEntry walk ctx field c imports) as [[line|e] s1];
      [|discriminate].
    destruct (mapFields walk ctx cs1' fs1' s1) as [[lines'|e] s2] eqn:Hrest;
      [|discriminate].
    intros [= <- <-].
    rewrite (IH _ _ _ (eq_add_S _ _ Hlen) Hrest).
    destruct (mapFields walk ctx cs2 fs2 s2) as [[rest|e] s3]; reflexivity.
Qed.

(** A field that throws after the fields before it are rendered makes the
    whole object throw the same exception. *)
Lemma objectShape_throws walk ctx fs1 field fs2 cs1 c cs2 lines imports0 imports e imports' :
  length fs1 = length cs1 ->
  mapFields walk ctx cs1 fs1 imports0 = (Return lines, imports) ->
  fieldEntry walk ctx field c imports = (Throw e, imports') ->
  objectShape walk ctx (fs1 ++ field :: fs2) (cs1 ++ c :: cs2) imports0
  = (Throw e, imports').
Proof.
  intros Hlen Hpre Hentry. unfold objectShape, bind at 1.
  rewrite (mapFields_app _ _ _ _ _ _ _ _ _ Hlen Hpre).
  simpl. unfold bind at 1. rewrite Hentry. reflexivity.
Qed.

(** C4: a field paired with a set throws the contract error at once, with
    the accumulator untouched, when its cardinality is neither MANY nor
    AT_LEAST_ONE; otherwise the field is rendered from the set's element
    codec, and the contract error can then only come out of the walk of
    that element.  The error of a field aborts the walk of the object or
    named tuple (whose synthesised cardinality is ONE) it belongs to. *)
Theorem set_field_contract getKind ctx field inner imports :
  let walk := walkCodec getKind in
  let entry := fieldEntry walk ctx field (SetCodec inner) imports in
  (cardinality field <> MANY /\ cardinality field <> AT_LEAST_ONE ->
   entry = (Throw setContractError, imports)) /\
  (cardinality field = MANY \/ cardinality field = AT_LEAST_ONE ->
   entry = fieldLine walk ctx field inner imports) /\
  (fst entry = Throw setContractError <->
   (cardinality field <> MANY /\ cardinality field <> AT_LEAST_ONE) \/
   fst (walk inner (deeper ctx) imports) = Throw setContractError) /\
  (forall fs1 fs2 cs1 cs2 lines imports0,
      length fs1 = length cs1 ->
      mapFields walk ctx cs1 fs1 imports0 = (Return lines, imports) ->
      cardinality field <> MANY /\ cardinality field <> AT_LEAST_ONE ->
      walk (ObjectCodec (fs1 ++ field :: fs2) (cs1 ++ SetCodec inner :: cs2))
        ctx imports0
      = (Throw setContractError, imports)) /\
  (forall ns1 n ns2 cs1 cs2 lines imports0,
      length ns1 = length cs1 ->
      mapFields walk ctx cs1 (map (fun name => mkField name ONE) ns1) imports0
      = (Return lines, imports) ->
      walk (NamedTupleCodec (ns1 ++ n :: ns2) (cs1 ++ SetCodec inner :: cs2))
        ctx imports0
      = (Throw setContractError, imports)).
Proof.
  intros walk entry.
  assert (Hbad : isMulti (cardinality field) = false ->
                 entry = (Throw setContractError, imports)).
  { intros H. unfold entry. simpl. rewrite H. reflexivity. }
  assert (Hgood : isMulti (cardinality field) = true ->
                  entry = fieldLine walk ctx field inner imports).
  { intros H. unfold entry. simpl. rewrite H. reflexivity. }
  split; [|split; [|split; [|split]]].
  - intros H. apply Hbad, isMulti_false, H.
  - intros H. apply Hgood, isMulti_true, H.
  - rewrite <- isMulti_false.
    destruct (isMulti (cardinality field)) eqn:Hm.
    + rewrite (Hgood eq_refl). unfold fieldLine, bind, lift, ret.
      destruct (walk inner (deeper ctx) imports) as [[type|e] s1]; simpl.
      * apply isMulti_true in Hm.
        destruct Hm as [-> | ->]; simpl; split;
          [discriminate | intros [?|?]; discriminate
          | discriminate | intros [?|?]; discriminate].
      * split; [tauto | intros [?|?]; [discriminate | assumption]].
    + rewrite (Hbad eq_refl). simpl. tauto.
  - intros fs1 fs2 cs1 cs2 lines imports0 Hlen Hpre Hcard.
    unfold walk. rewrite walkCodec_unfold. simpl. unfold bind at 1.
    erewrite objectShape_throws; [reflexivity | eassumption | eassumption |].
    apply Hbad, isMulti_false, Hcard.
  - intros ns1 n ns2 cs1 cs2 lines imports0 Hlen Hpre.
    unfold walk. rewrite walkCodec_unfold. simpl. unfold bind at 1.
    rewrite map_app. simpl.
    erewrite objectShape_throws;
      [reflexivity | now rewrite length_map | eassumption | reflexivity].
Qed.

Lemma set_field_contract_witness :
  (cardinality (mkField "tags" ONE) <> MANY /\
   cardinality (mkField "tags" ONE) <> AT_LEAST_ONE) /\
  walkCodec sampleKind
    (ObjectCodec ([mkField "id" ONE] ++ mkField "tags" ONE :: [])
       ([ScalarCodec "string" false None]
          ++ SetCodec (ScalarCodec "string" false None) :: []))
    resultCtx []
  = (Throw setContractError, []) /\
  (cardinality (mkField "tags" MANY) = MANY \/
   cardinality (mkField "tags" MANY) = AT_LEAST_ONE) /\
  fieldEntry (walkCodec sampleKind) resultCtx (mkField "tags" MANY)
    (SetCodec (ScalarCodec "string" false None)) []
  = (Return ("  " ++ JSON_stringify "tags" ++ ": string[];"), []).
Proof.
  assert (Hone : cardinality (mkField "tags" ONE) <> MANY /\
                 cardinality (mkField "tags" ONE) <> AT_LEAST_ONE)
    by (split; discriminate).
  split; [exact Hone|]. split.
  - destruct (set_field_contract sampleKind resultCtx (mkField "tags" ONE)
                (ScalarCodec "string" false None) [])
      as (_ & _ & _ & Hobject & _).
    apply Hobject with (lines := ["  " ++ JSON_stringify "id" ++ ": string;"]);
      [reflexivity | reflexivity | exact Hone].
  - split; [now left|].
    destruct (set_field_contract sampleKind resultCtx (mkField "tags" MANY)
                (ScalarCodec "string" false None) [])
      as (_ & Hmany & _).
    rewrite (Hmany (or_introl eq_refl)). reflexivity.
Defined.

(** C9, as the specification words it, fails below a range: the set under
    [RangeCodec] is met by the walker and is not a field's sub-codec, yet
    the walk throws the range error, not "Unexpected codec kind". *)
Lemma set_below_range_is_range_error :
  let inner := ScalarCodec "number" false None in
  walkCodec sampleKind (RangeCodec (SetCodec inner)) resultCtx []
  = (Throw (Error "expected range subtype to be scalar type"), []) /\
  walkCodec sampleKind (RangeCodec (SetCodec inner)) resultCtx []
  <> (Throw (Error ("Unexpected codec kind: " ++ sampleKind (SetCodec inner))), []).
Proof.
  cbv zeta. split; [reflexivity | discriminate].
Qed.

(** C1, as the code has it: with [optionalNulls] set, a field of
    cardinality AT_MOST_ONE is rendered exactly when its sub-codec is not a
    set and walks to a signature, and the line is then the quoted name
    followed by [?], a colon, and that signature WITH the wrapper's
    [ | null] appended. *)
Theorem optional_field_keeps_null_union
        getKind ctx field subCodec imports line imports' :
  optionalNulls ctx = true ->
  cardinality field = AT_MOST_ONE ->
  fieldEntry (walkCodec getKind) ctx field subCodec imports = (Return line, imports')
  <->
  exists type,
    isSet subCodec = false /\
    walkCodec getKind subCodec (deeper ctx) imports = (Return type, imports') /\
    line = indent ctx ++ "  " ++ JSON_stringify (name field)
           ++ "?: " ++ type ++ " | null;".
Proof.
  intros Hopt Hcard.
  destruct (isSet subCodec) eqn:Hset.
  - destruct subCodec; try discriminate. simpl. rewrite Hcard. simpl.
    split; [discriminate | intros (? & [=] & _)].
  - rewrite (fieldEntry_not_set _ _ _ _ Hset), fieldLine_return.
    rewrite Hopt, Hcard. simpl. split.
    + intros (type & wrapped & Hw & [= <-] & ->).
      exists type. repeat split; [assumption|].
      rewrite !append_assoc. reflexivity.
    + intros (type & _ & Hw & ->).
      exists type, (type ++ " | null"). repeat split; [assumption|].
      rewrite !append_assoc. reflexivity.
Qed.

Lemma optional_field_keeps_null_union_witness :
  optionalNulls argsCtx = true /\
  cardinality (mkField "title" AT_MOST_ONE) = AT_MOST_ONE /\
  fieldEntry (walkCodec sampleKind) argsCtx (mkField "title" AT_MOST_ONE)
    (ScalarCodec "string" false None) []
  = (Return ("  " ++ JSON_stringify "title" ++ "?: string | null;"), []).
Proof.
  split; [reflexivity|]. split; [reflexivity|].
  apply (optional_field_keeps_null_union sampleKind argsCtx
           (mkField "title" AT_MOST_ONE) (ScalarCodec "string" false None) []);
    [reflexivity | reflexivity |].
  exists "string". repeat split.
Defined.

(** C1, as the specification words it, fails: for the field [title] of
    cardinality AT_MOST_ONE over the scalar [string], walked with
    [optionalNulls] set, the rendered line and the object signature carry
    [string | null], not the bare [string]. *)
Lemma optional_field_null_union_not_omitted :
  let ctx := argsCtx in
  let field := mkField "title" AT_MOST_ONE in
  let child := ScalarCodec "string" false None in
  optionalNulls ctx = true /\
  cardinality field = AT_MOST_ONE /\
  walkCodec sampleKind child (deeper ctx) [] = (Return "string", []) /\
  fieldEntry (walkCodec sampleKind) ctx field child []
  <> (Return ("  " ++ JSON_stringify "title" ++ "?: string;"), []) /\
  fieldEntry (walkCodec sampleKind) ctx field child []
  = (Return ("  " ++ JSON_stringify "title" ++ "?: string | null;"), []) /\
  walkCodec sampleKind (ObjectCodec [field] [child]) ctx []
  = (Return ("Readonly<{" ++ newline
             ++ "  " ++ JSON_stringify "title" ++ "?: string | null;" ++ newline
             ++ "}>"), []).
Proof.
  cbv zeta. repeat split. discriminate.
Qed.

(** C2: when the analyzer returns, the negotiation returned a cardinality
    and two codecs; [args] is the walk of the input codec under
    [optionalNulls = true], [readonly = true], taken as it is; [result] is
    the wrapper applied, with the negotiated cardinality, to the walk of
    the output codec under [optionalNulls = false], [readonly = false]
    (a signature that does not depend on what the first walk left in the
    accumulator). *)
Theorem analyzeQuery_types
        getKind (Client : Type) parseQuery (client : Client) query r :
  analyzeQuery getKind Client parseQuery client query = Return r ->
  exists cardinality inCodec outCodec type imports1,
    parseQuery client query = Return (cardinality, inCodec, outCodec) /\
    walkCodec getKind inCodec
      {| indent := ""; optionalNulls := true; readonly := true |} newSet
    = (Return (QueryType.args r), imports1) /\
    walkCodec getKind outCodec
      {| indent := ""; optionalNulls := false; readonly := false |} imports1
    = (Return type, QueryType.imports r) /\
    fst (walkCodec getKind outCodec
           {| indent := ""; optionalNulls := false; readonly := false |} newSet)
    = Return type /\
    applyCardinalityToTsType type cardinality = Return (QueryType.result r) /\
    QueryType.cardinality r = cardinality /\
    QueryType.query r = query.
Proof.
  unfold analyzeQuery. fold argsCtx resultCtx.
  destruct (parseQuery client query) as [[[card inCodec] outCodec]|e];
    [|discriminate].
  destruct (walkCodec getKind inCodec argsCtx newSet) as [[args|e] s1] eqn:Hin;
    [|discriminate].
  destruct (walkCodec getKind outCodec resultCtx s1) as [[type|e] s2] eqn:Hout;
    [|discriminate].
  destruct (applyCardinalityToTsType type card) as [result|e] eqn:Hwrap;
    [|discriminate].
  intros [= <-]. simpl.
  exists card, inCodec, outCodec, type, s1.
  repeat split; try assumption.
  destruct (walkCodec_imports getKind outCodec resultCtx) as [names [_ Hfst]].
  rewrite (Hfst newSet s1), Hout. reflexivity.
Qed.

Lemma analyzeQuery_types_witness :
  let parse := fun (_ : unit) (_ : string) =>
                 Return (AT_MOST_ONE, NullCodec, ScalarCodec "number" false None) in
  let r := QueryType.make "null" "number | null" AT_MOST_ONE "select 1" [] in
  analyzeQuery sampleKind unit parse tt "select 1" = Return r /\
  exists cardinality inCodec outCodec type imports1,
    parse tt "select 1" = Return (cardinality, inCodec, outCodec) /\
    walkCodec sampleKind inCodec
      {| indent := ""; optionalNulls := true; readonly := true |} newSet
    = (Return (QueryType.args r), imports1) /\
    walkCodec sampleKind outCodec
      {| indent := ""; optionalNulls := false; readonly := false |} imports1
    = (Return type, QueryType.imports r) /\
    fst (walkCodec sampleKind outCodec
           {| indent := ""; optionalNulls := false; readonly := false |} newSet)
    = Return type /\
    applyCardinalityToTsType type cardinality = Return (QueryType.result r) /\
    QueryType.cardinality r = cardinality /\
    QueryType.query r = "select 1".
Proof.
  cbv zeta. split; [reflexivity|].
  apply (analyzeQuery_types sampleKind unit
           (fun _ _ => Return (AT_MOST_ONE, NullCodec,
                               ScalarCodec "number" false None))
           tt "select 1").
  reflexivity.
Defined.

(** C6: a walk never removes a name from the accumulator and keeps it free
    of duplicates; the analyzer starts from the empty set, hands the set
    the input walk leaves to the output walk, and returns the outcome: a
    name is in the returned set exactly when one of the two walks
    registers it, and then it occurs there exactly once. *)
Theorem imports_accumulator_shared getKind :
  (forall codec ctx imports,
      (forall name,
          In name imports ->
          In name (snd (walkCodec getKind codec ctx imports))) /\
      (NoDup imports -> NoDup (snd (walkCodec getKind codec ctx imports)))) /\
  (forall (Client : Type) parseQuery (client : Client) query r,
      analyzeQuery getKind Client parseQuery client query = Return r ->
      exists cardinality inCodec outCodec,
        parseQuery client query = Return (cardinality, inCodec, outCodec) /\
        QueryType.imports r
        = snd (walkCodec getKind outCodec resultCtx
                 (snd (walkCodec getKind inCodec argsCtx newSet))) /\
        NoDup (QueryType.imports r) /\
        forall name,
          (In name (QueryType.imports r) <->
           In name (snd (walkCodec getKind inCodec argsCtx newSet)) \/
           In name (snd (walkCodec getKind outCodec resultCtx newSet))) /\
          (In name (QueryType.imports r) ->
           count_occ string_dec (QueryType.imports r) name = 1)).
Proof.
  assert (Hgrow : forall codec ctx imports,
             (forall name,
                 In name imports ->
                 In name (snd (walkCodec getKind codec ctx imports))) /\
             (NoDup imports -> NoDup (snd (walkCodec getKind codec ctx imports)))).
  { intros codec ctx imports.
    destruct (walkCodec_imports getKind codec ctx) as [names [Hsnd _]].
    rewrite Hsnd. split.
    - intros name Hin. apply addAll_In. now left.
    - apply addAll_NoDup. }
  split; [exact Hgrow|].
  intros Client parseQuery client query r. unfold analyzeQuery.
  destruct (parseQuery client query) as [[[card inCodec] outCodec]|e];
    [|discriminate].
  destruct (walkCodec getKind inCodec argsCtx newSet) as [[args|e] s1] eqn:Hin;
    [|discriminate].
  destruct (walkCodec getKind outCodec resultCtx s1) as [[type|e] s2] eqn:Hout;
    [|discriminate].
  destruct (applyCardinalityToTsType type card) as [result|e]; [|discriminate].
  intros [= <-]. simpl.
  exists card, inCodec, outCodec. split; [reflexivity|].
  assert (Hs2 : s2 = snd (walkCodec getKind outCodec resultCtx s1))
    by now rewrite Hout.
  assert (Hnd : NoDup s2).
  { rewrite Hs2. apply Hgrow.
    replace s1 with (snd (walkCodec getKind inCodec argsCtx newSet))
      by now rewrite Hin.
    apply Hgrow. constructor. }
  rewrite Hin. simpl.
  split; [exact Hs2|]. split; [exact Hnd|].
  intros name. split.
  - destruct (walkCodec_imports getKind outCodec resultCtx) as [names [Hsnd _]].
    rewrite Hs2, !Hsnd, !addAll_In. simpl. tauto.
  - intros Hmem. now apply NoDup_count_occ'.
Qed.

Lemma imports_accumulator_shared_witness :
  let parse := fun (_ : unit) (_ : string) =>
                 Return (ONE, ScalarCodec "Range" true None,
                         ScalarCodec "Range" true None) in
  analyzeQuery sampleKind unit parse tt "select <Range>$0"
  = Return (QueryType.make "Range" "Range" ONE "select <Range>$0" ["Range"]) /\
  count_occ string_dec ["Range"] "Range" = 1.
Proof.
  cbv zeta.
  assert (Hrun : analyzeQuery sampleKind unit
                   (fun _ _ => Return (ONE, ScalarCodec "Range" true None,
                                       ScalarCodec "Range" true None))
                   tt "select <Range>$0"
                 = Return (QueryType.make "Range" "Range" ONE
                             "select <Range>$0" ["Range"]))
    by reflexivity.
  split; [exact Hrun|].
  destruct (imports_accumulator_shared sampleKind) as [_ Hshared].
  destruct (Hshared _ _ _ _ _ Hrun) as (card & inC & outC & _ & _ & _ & Hcount).
  destruct (Hcount "Range") as [_ Honce].
  apply Honce. simpl. now left.
Defined.

(** ** The recursive calls of the body *)

Lemma bind_agree {A B} (m m' : Walk A) (k k' : A -> Walk B) imports :
  m imports = m' imports ->
  (forall v s, k v s = k' v s) ->
  bind m k imports = bind m' k' imports.
Proof.
  intros Hm Hk. unfold bind. rewrite Hm.
  destruct (m' imports) as [[v|e] s]; [apply Hk | reflexivity].
Qed.

Lemma mapWalk_agree {A B} (f g : A -> Walk B) (l : list A) :
  (forall x, In x l -> forall s, f x s = g x s) ->
  forall imports, mapWalk f l imports = mapWalk g l imports.
Proof.
  induction l as [|x rest IH]; intros Hfg imports; simpl; [reflexivity|].
  apply bind_agree; [apply Hfg; now left|]. intros y s.
  apply bind_agree; [|reflexivity].
  apply IH. intros z Hz. apply Hfg. now right.
Qed.

Section SameCalls.
Variables walk walk' : Codec -> Ctx -> Walk string.
Variable ctx : Ctx.

Lemma fieldLine_agree field c imports :
  (forall s, walk c (deeper ctx) s = walk' c (deeper ctx) s) ->
  fieldLine walk ctx field c imports = fieldLine walk' ctx field c imports.
Proof.
  intros H. unfold fieldLine. apply bind_agree; [apply H | reflexivity].
Qed.

Lemma fieldEntry_agree field c imports :
  (forall s, walk (unSet c) (deeper ctx) s = walk' (unSet c) (deeper ctx) s) ->
  fieldEntry walk ctx field c imports = fieldEntry walk' ctx field c imports.
Proof.
  intros H.
  destruct c; simpl in *; try (now apply fieldLine_agree).
  destruct (isMulti (cardinality field));
    [now apply fieldLine_agree | reflexivity].
Qed.

Lemma mapFields_agree cs fs :
  (forall c, In c cs ->
             forall s, walk (unSet c) (deeper ctx) s
                       = walk' (unSet c) (deeper ctx) s) ->
  forall imports,
    mapFields walk ctx cs fs imports = mapFields walk' ctx cs fs imports.
Proof.
  revert cs.
  induction fs as [|field fs' IH]; intros [|c cs'] H imports; simpl;
    try reflexivity.
  apply bind_agree; [apply fieldEntry_agree, H; now left|]. intros line s.
  apply bind_agree; [|reflexivity].
  apply IH. intros c' Hc'. apply H. now right.
Qed.

Lemma objectShape_agree fs cs imports :
  (forall c, In c cs ->
             forall s, walk (unSet c) (deeper ctx) s
                       = walk' (unSet c) (deeper ctx) s) ->
  objectShape walk ctx fs cs imports = objectShape walk' ctx fs cs imports.
Proof.
  intros H. unfold objectShape.
  apply bind_agree; [now apply mapFields_agree | reflexivity].
Qed.

Lemma walkBody_agree getKind codec imports :
  (forall c ctx' s,
      In (c, ctx') (recursiveCalls codec ctx) -> walk c ctx' s = walk' c ctx' s) ->
  walkBody getKind walk codec ctx imports
  = walkBody getKind walk' codec ctx imports.
Proof.
  intros H.
  assert (Hfields : forall cs,
             (forall c ctx' s,
                 In (c, ctx') (map (fun c => (unSet c, deeper ctx)) cs) ->
                 walk c ctx' s = walk' c ctx' s) ->
             forall c, In c cs ->
                       forall s, walk (unSet c) (deeper ctx) s
                                 = walk' (unSet c) (deeper ctx) s).
  { intros cs Hcs c Hc s. apply Hcs.
    apply (in_map (fun c => (unSet c, deeper ctx))), Hc. }
  destruct codec; simpl in *; try reflexivity.
  - apply bind_agree; [apply objectShape_agree, Hfields, H | reflexivity].
  - apply bind_agree; [apply objectShape_agree, Hfields, H | reflexivity].
  - apply bind_agree; [apply H; now left | reflexivity].
  - apply bind_agree; [|reflexivity].
    apply mapWalk_agree. intros c Hc s. apply H.
    apply (in_map (fun c => (c, ctx))), Hc.
  - destruct (isScalar codec); [|reflexivity].
    apply bind_agree; [reflexivity|]. intros _ s.
    apply bind_agree; [apply H; now left | reflexivity].
  - destruct (isScalar codec); [|reflexivity].
    apply bind_agree; [reflexivity|]. intros _ s.
    apply bind_agree; [apply H; now left | reflexivity].
Qed.
End SameCalls.

Lemma recursiveCalls_readonly codec ctx codec' ctx' :
  In (codec', ctx') (recursiveCalls codec ctx) -> readonly ctx' = readonly ctx.
Proof.
  destruct codec; simpl; try tauto;
    try (intros [[= _ <-]|[]]; reflexivity);
    rewrite in_map_iff; intros (c & [= _ <-] & _); reflexivity.
Qed.

Lemma reaches_readonly codec ctx codec' ctx' :
  reaches codec ctx codec' ctx' -> readonly ctx' = readonly ctx.
Proof.
  induction 1 as [|codec ctx codec1 ctx1 codec' ctx' Hcall _ IH];
    [reflexivity|].
  rewrite IH. eapply recursiveCalls_readonly, Hcall.
Qed.

Lemma readonlyMarked_intro getKind codec ctx :
  readonly ctx = true -> readonlyMarked getKind codec ctx.
Proof.
  intros Hro.
  destruct codec; try exact I; unfold readonlyMarked; intros imports;
    rewrite walkCodec_unfold; simpl; rewrite Hro; reflexivity.
Qed.

(** C8: the body of the walker depends on its recursive calls only
    through the sub-codecs paired with the context it was given (fields
    get the copy with a deeper indent); every call the walk reaches, at
    any depth, carries the [readonly] flag of the first; and under
    [readonly = true] every call reached on an object or named tuple is
    its record shape inside [Readonly<...>], on an array [readonly ]
    before the element signature and [[]], on a tuple [readonly ] before
    the bracketed element signatures. *)
Theorem readonly_is_deep getKind codec ctx :
  (forall walk walk' imports,
      (forall c ctx' s,
          In (c, ctx') (recursiveCalls codec ctx) ->
          walk c ctx' s = walk' c ctx' s) ->
      walkBody getKind walk codec ctx imports
      = walkBody getKind walk' codec ctx imports) /\
  (forall codec' ctx',
      reaches codec ctx codec' ctx' -> readonly ctx' = readonly ctx) /\
  (readonly ctx = true ->
   forall codec' ctx',
     reaches codec ctx codec' ctx' -> readonlyMarked getKind codec' ctx').
Proof.
  split; [|split].
  - intros walk walk' imports H. now apply walkBody_agree.
  - intros codec' ctx'. apply reaches_readonly.
  - intros Hro codec' ctx' Hreach.
    apply readonlyMarked_intro.
    rewrite (reaches_readonly _ _ _ _ Hreach). exact Hro.
Qed.

Lemma readonly_is_deep_witness :
  let inner := NamedTupleCodec ["x"] [NullCodec] in
  let outer := ObjectCodec [mkField "rows" ONE] [ArrayCodec (TupleCodec [inner])] in
  readonly argsCtx = true /\
  reaches outer argsCtx inner (deeper argsCtx) /\
  walkCodec sampleKind inner (deeper argsCtx) []
  = (Return ("Readonly<{" ++ newline
             ++ "    " ++ JSON_stringify "x" ++ ": null;" ++ newline
             ++ "  }>"), []) /\
  walkCodec sampleKind outer argsCtx []
  = (Return ("Readonly<{" ++ newline
             ++ "  " ++ JSON_stringify "rows"
             ++ ": readonly readonly [Readonly<{" ++ newline
             ++ "    " ++ JSON_stringify "x" ++ ": null;" ++ newline
             ++ "  }>][];" ++ newline
             ++ "}>"), []).
Proof.
  cbv zeta.
  assert (Hreach :
            reaches
              (ObjectCodec [mkField "rows" ONE]
                 [ArrayCodec (TupleCodec [NamedTupleCodec ["x"] [NullCodec]])])
              argsCtx (NamedTupleCodec ["x"] [NullCodec]) (deeper argsCtx)).
  { eapply reaches_below; [now left|].
    eapply reaches_below; [now left|].
    eapply reaches_below; [now left|].
    apply reaches_here. }
  split; [reflexivity|]. split; [exact Hreach|].
  destruct (readonly_is_deep sampleKind
              (ObjectCodec [mkField "rows" ONE]
                 [ArrayCodec (TupleCodec [NamedTupleCodec ["x"] [NullCodec]])])
              argsCtx) as (_ & _ & Hdeep).
  split.
  - rewrite (Hdeep eq_refl _ _ Hreach []). reflexivity.
  - rewrite (Hdeep eq_refl _ _ (reaches_here _ _) []). reflexivity.
Defined.

(** * Further properties of the walker *)

(** ** What a walk does to the accumulator *)

Lemma addAll_absorbs (names : list string) (imports : Imports) :
  (forall name, In name names -> In name imports) ->
  addAll names imports = imports.
Proof.
  revert imports.
  induction names as [|n rest IH]; intros imports Hall; simpl; [reflexivity|].
  fold (addAll rest (Set_add n imports)).
  rewrite (Set_add_member n imports) by (apply Hall; now left).
  apply IH. intros name Hname. apply Hall. now right.
Qed.

(** X1: the completion of a walk, signature or exception, is the same
    whatever the accumulator holds, and the accumulator it leaves is the
    one it got with one fixed sequence of names added. *)
Theorem walk_is_a_writer getKind codec ctx :
  exists completion names,
    forall imports,
      walkCodec getKind codec ctx imports = (completion, addAll names imports).
Proof. apply walkCodec_writerLike. Qed.

(** X2: walking the same codec again changes nothing: the second walk
    completes as the first did and leaves the accumulator of the first. *)
Theorem rewalk_adds_nothing getKind codec ctx imports :
  walkCodec getKind codec ctx (snd (walkCodec getKind codec ctx imports))
  = walkCodec getKind codec ctx imports.
Proof.
  destruct (walkCodec_writerLike getKind codec ctx) as [r [names H]].
  rewrite !H. simpl. f_equal.
  apply addAll_absorbs. intros name Hname. apply addAll_In. now right.
Qed.

Lemma addsOnly_weaken {A} (m : Walk A) (l1 l2 : list string) :
  incl l1 l2 -> addsOnly m l1 -> addsOnly m l2.
Proof.
  intros Hincl Hm imports name Hin.
  destruct (Hm imports name Hin); [now left | right; now apply Hincl].
Qed.

Lemma addsOnly_ret {A} (v : A) names : addsOnly (ret v) names.
Proof. intros imports name Hin. now left. Qed.

Lemma addsOnly_throw {A} (e : Exception) names : addsOnly (@throw A e) names.
Proof. intros imports name Hin. now left. Qed.

Lemma addsOnly_lift {A} (c : Completion A) names : addsOnly (lift c) names.
Proof. intros imports name Hin. now left. Qed.

Lemma addsOnly_addImport n names :
  In n names -> addsOnly (addImport n) names.
Proof.
  intros Hn imports name Hin. simpl in Hin.
  apply Set_add_In in Hin as [->|Hin]; [now right | now left].
Qed.

Lemma addsOnly_bind {A B} (m : Walk A) (k : A -> Walk B) names :
  addsOnly m names -> (forall v, addsOnly (k v) names) ->
  addsOnly (bind m k) names.
Proof.
  intros Hm Hk imports name. unfold bind.
  specialize (Hm imports name).
  destruct (m imports) as [[v|e] s1]; simpl in *.
  - intros Hin. destruct (Hk v s1 name Hin) as [H1|H2]; [auto | now right].
  - exact Hm.
Qed.

#[local] Hint Resolve addsOnly_ret addsOnly_throw addsOnly_lift : walk.

Lemma addsOnly_mapWalk {A B} (f : A -> Walk B) (l : list A) names :
  Forall (fun x => addsOnly (f x) names) l -> addsOnly (mapWalk f l) names.
Proof.
  induction 1 as [|x rest Hx _ IH]; simpl; auto with walk.
  apply addsOnly_bind; [assumption|]. intros y.
  apply addsOnly_bind; [assumption|]. auto with walk.
Qed.

Lemma addsOnly_mapFields walk ctx cs fs names :
  Forall (fun c => forall ctx', addsOnly (walk (unSet c) ctx') names) cs ->
  addsOnly (mapFields walk ctx cs fs) names.
Proof.
  intros Hcs. revert fs.
  induction Hcs as [|c cs' Hc _ IH]; intros [|field fs']; simpl;
    auto with walk.
  apply addsOnly_bind.
  - assert (Hline : addsOnly (fieldLine walk ctx field (unSet c)) names).
    { unfold fieldLine. apply addsOnly_bind; [apply Hc|]. intros type.
      apply addsOnly_bind; auto with walk. }
    destruct c; simpl in *; try exact Hline.
    destruct (isMulti (cardinality field)); [exact Hline | auto with walk].
  - intros line. apply addsOnly_bind; [apply IH|]. auto with walk.
Qed.

Lemma importNames_unSet codec : importNames (unSet codec) = importNames codec.
Proof. destruct codec; reflexivity. Qed.

Lemma addsOnly_children (P : Codec -> list string -> Prop) cs :
  (forall c l1 l2, incl l1 l2 -> P c l1 -> P c l2) ->
  Forall (fun c => P (unSet c) (importNames (unSet c))) cs ->
  Forall (fun c => P (unSet c) (flat_map importNames cs)) cs.
Proof.
  intros Hweak Hcs. apply Forall_forall. intros c Hc.
  rewrite Forall_forall in Hcs.
  apply Hweak with (l1 := importNames (unSet c)); [|now apply Hcs].
  rewrite importNames_unSet. intros name Hname.
  apply in_flat_map. now exists c.
Qed.

Lemma walkCodec_addsOnly getKind codec :
  forall ctx, addsOnly (walkCodec getKind codec ctx) (importNames codec).
Proof.
  induction codec using Codec_walk_ind; intros ctx;
    rewrite walkCodec_unfold; simpl; auto with walk.
  - destruct v as [vs|]; [auto with walk|].
    apply addsOnly_bind; [|auto with walk].
    destruct i; [apply addsOnly_addImport; now left | auto with walk].
  - apply addsOnly_bind; [|auto with walk].
    unfold objectShape. apply addsOnly_bind; [|auto with walk].
    apply addsOnly_mapFields.
    apply (addsOnly_children
             (fun c l => forall ctx', addsOnly (walkCodec getKind c ctx') l));
      [|assumption].
    intros c l1 l2 Hincl Hc ctx'. eapply addsOnly_weaken; eauto.
  - apply addsOnly_bind; [|auto with walk].
    unfold objectShape. apply addsOnly_bind; [|auto with walk].
    apply addsOnly_mapFields.
    apply (addsOnly_children
             (fun c l => forall ctx', addsOnly (walkCodec getKind c ctx') l));
      [|assumption].
    intros c l1 l2 Hincl Hc ctx'. eapply addsOnly_weaken; eauto.
  - apply addsOnly_bind; auto with walk.
  - apply addsOnly_bind; [|auto with walk].
    apply addsOnly_mapWalk. apply Forall_forall. intros c Hc.
    rewrite Forall_forall in H.
    apply addsOnly_weaken with (l1 := importNames c); [|now apply H].
    intros name Hname. apply in_flat_map. now exists c.
  - destruct (isScalar codec); [|auto with walk].
    apply addsOnly_bind; [apply addsOnly_addImport; now left|]. intros _.
    apply addsOnly_bind; [|auto with walk].
    eapply addsOnly_weaken; [|apply IHcodec]. intros name Hname. now right.
  - destruct (isScalar codec); [|auto with walk].
    apply addsOnly_bind; [apply addsOnly_addImport; now left|]. intros _.
    apply addsOnly_bind; [|auto with walk].
    eapply addsOnly_weaken; [|apply IHcodec]. intros name Hname. now right.
Qed.

(** X3: a walk adds to the accumulator only the type names of imported
    plain scalars and the wrapper names of ranges and multiranges found in
    the tree; a tree without any leaves the accumulator exactly as it
    was. *)
Theorem walk_registers_only_import_names getKind codec ctx imports :
  (forall name,
      In name (snd (walkCodec getKind codec ctx imports)) ->
      In name imports \/ In name (importNames codec)) /\
  (importNames codec = [] ->
   snd (walkCodec getKind codec ctx imports) = imports).
Proof.
  split; [intros name; apply walkCodec_addsOnly|].
  intros Hnone.
  destruct (walkCodec_writerLike getKind codec ctx) as [r [names H]].
  rewrite H. simpl. apply addAll_absorbs. intros name Hname.
  destruct (walkCodec_addsOnly getKind codec ctx imports name) as [Hin|Hin].
  - rewrite H. simpl. apply addAll_In. now right.
  - exact Hin.
  - rewrite Hnone in Hin. destruct Hin.
Qed.

Lemma walk_registers_only_import_names_witness :
  let codec := ObjectCodec [mkField "id" ONE; mkField "tags" MANY]
                 [ScalarCodec "string" false None;
                  SetCodec (ScalarCodec "string" false None)] in
  importNames codec = [] /\
  snd (walkCodec sampleKind codec argsCtx ["Range"]) = ["Range"].
Proof.
  cbv zeta. split; [reflexivity|].
  apply (walk_registers_only_import_names sampleKind
           (ObjectCodec [mkField "id" ONE; mkField "tags" MANY]
              [ScalarCodec "string" false None;
               SetCodec (ScalarCodec "string" false None)])
           argsCtx ["Range"]).
  reflexivity.
Defined.

(** ** Which trees walk *)

Lemma returns_bind {A B} (m : Walk A) (k : A -> Walk B) (b : bool) imports :
  (forall v s, returns (k v s) = b) ->
  returns (bind m k imports) = returns (m imports) && b.
Proof.
  intros Hk. unfold bind.
  destruct (m imports) as [[v|e] s1]; [apply Hk | reflexivity].
Qed.

Lemma returns_mapWalk {A B} (f : A -> Walk B) (g : A -> bool) (l : list A) :
  Forall (fun x => forall s, returns (f x s) = g x) l ->
  forall imports, returns (mapWalk f l imports) = forallb g l.
Proof.
  induction 1 as [|x rest Hx _ IH]; intros imports; simpl; [reflexivity|].
  rewrite returns_bind with (b := forallb g rest); [now rewrite Hx|].
  intros y s. rewrite returns_bind with (b := true); [|reflexivity].
  rewrite IH. apply andb_true_r.
Qed.

Section ReturnsShape.
Variable walk : Codec -> Ctx -> Walk string.
Variable accepts : Codec -> bool.

Lemma returns_fieldLine ctx field c imports :
  (forall s, returns (walk c (deeper ctx) s) = accepts c) ->
  returns (fieldLine walk ctx field c imports)
  = accepts c && knownCardinality (cardinality field).
Proof.
  intros Hc. unfold fieldLine.
  rewrite returns_bind with (b := knownCardinality (cardinality field));
    [now rewrite Hc|].
  intros type s. destruct (cardinality field); reflexivity.
Qed.

Lemma returns_fieldEntry ctx field c imports :
  (forall s, returns (walk (unSet c) (deeper ctx) s) = accepts (unSet c)) ->
  returns (fieldEntry walk ctx field c imports) = fieldWalkable accepts field c.
Proof.
  intros Hc.
  destruct c; simpl in *; try (now apply returns_fieldLine).
  destruct (isMulti (cardinality field)) eqn:Hm; [|reflexivity].
  rewrite returns_fieldLine by assumption.
  apply isMulti_true in Hm. destruct Hm as [-> | ->]; apply andb_true_r.
Qed.

Lemma returns_mapFields ctx cs fs :
  Forall (fun c => forall ctx' s,
              returns (walk (unSet c) ctx' s) = accepts (unSet c)) cs ->
  forall imports,
    returns (mapFields walk ctx cs fs imports) = fieldsWalkable accepts cs fs.
Proof.
  intros Hcs. revert fs.
  induction Hcs as [|c cs' Hc _ IH]; intros [|field fs'] imports; simpl;
    try reflexivity.
  rewrite returns_bind with (b := fieldsWalkable accepts cs' fs').
  - now rewrite returns_fieldEntry.
  - intros line s. rewrite returns_bind with (b := true); [|reflexivity].
    rewrite IH. apply andb_true_r.
Qed.

Lemma returns_objectShape ctx fs cs imports :
  Forall (fun c => forall ctx' s,
              returns (walk (unSet c) ctx' s) = accepts (unSet c)) cs ->
  returns (objectShape walk ctx fs cs imports) = fieldsWalkable accepts cs fs.
Proof.
  intros Hcs. unfold objectShape.
  rewrite returns_bind with (b := true); [|reflexivity].
  rewrite returns_mapFields by assumption. apply andb_true_r.
Qed.
End ReturnsShape.

Lemma returns_walkCodec getKind codec :
  forall ctx imports,
    returns (walkCodec getKind codec ctx imports) = walkable codec.
Proof.
  induction codec using Codec_walk_ind; intros ctx imports;
    rewrite walkCodec_unfold; simpl; try reflexivity.
  - destruct v; [reflexivity|]. destruct i; reflexivity.
  - rewrite returns_bind with (b := true); [|reflexivity].
    rewrite returns_objectShape with (accepts := walkable) by assumption.
    apply andb_true_r.
  - rewrite returns_bind with (b := true); [|reflexivity].
    rewrite returns_objectShape with (accepts := walkable) by assumption.
    apply andb_true_r.
  - rewrite returns_bind with (b := true); [|reflexivity].
    rewrite IHcodec. apply andb_true_r.
  - rewrite returns_bind with (b := true); [|reflexivity].
    rewrite returns_mapWalk with (g := walkable);
      [apply andb_true_r|].
    eapply Forall_impl; [|eassumption]. simpl. auto.
  - destruct codec; try reflexivity.
    simpl. destruct values; [reflexivity|]. destruct importedType; reflexivity.
  - destruct codec; try reflexivity.
    simpl. destruct values; [reflexivity|]. destruct importedType; reflexivity.
Qed.

(** X4: the walker returns a signature exactly for the trees of
    [walkable], under every context and accumulator: each field has a
    sub-codec and one of the four cardinalities, a set stands only under a
    MANY or AT_LEAST_ONE field, each range is over a scalar, and no set or
    codec of an unnamed class is walked; on every other tree it throws. *)
Theorem walk_returns_iff_walkable getKind codec ctx imports :
  (walkable codec = true <->
   exists type imports',
     walkCodec getKind codec ctx imports = (Return type, imports')) /\
  (walkable codec = false <->
   exists e imports',
     walkCodec getKind codec ctx imports = (Throw e, imports')).
Proof.
  pose proof (returns_walkCodec getKind codec ctx imports) as H.
  unfold returns in H.
  destruct (walkCodec getKind codec ctx imports) as [[type|e] s]; simpl in H;
    rewrite <- H; split; split;
    try discriminate; try (intros (? & ? & [=])); eauto.
Qed.

Lemma walk_returns_iff_walkable_witness :
  let codec := ObjectCodec [mkField "tags" AT_MOST_ONE]
                 [SetCodec (ScalarCodec "string" false None)] in
  walkable codec = false /\
  exists e imports',
    walkCodec sampleKind codec resultCtx [] = (Throw e, imports').
Proof.
  cbv zeta. split; [reflexivity|].
  apply (walk_returns_iff_walkable sampleKind
           (ObjectCodec [mkField "tags" AT_MOST_ONE]
              [SetCodec (ScalarCodec "string" false None)])
           resultCtx []).
  reflexivity.
Defined.

(** ** The context only changes the text *)

Lemma alike_bind {A B} (m m' : Walk A) (k k' : A -> Walk B) imports :
  alike (m imports) (m' imports) ->
  (forall v v' s, alike (k v s) (k' v' s)) ->
  alike (bind m k imports) (bind m' k' imports).
Proof.
  intros [Hs Ho] Hk. unfold bind.
  destruct (m imports) as [[v|e] s1], (m' imports) as [[v'|e'] s1'];
    simpl in *; subst; try contradiction.
  - apply Hk.
  - split; reflexivity.
Qed.

Lemma alike_ret {A} (v v' : A) imports : alike (ret v imports) (ret v' imports).
Proof. split; [reflexivity | exact I]. Qed.

Lemma alike_refl_throw {A} (e : Exception) imports :
  alike (@throw A e imports) (@throw A e imports).
Proof. split; reflexivity. Qed.

Lemma alike_mapWalk {A B} (f g : A -> Walk B) (l : list A) :
  Forall (fun x => forall s, alike (f x s) (g x s)) l ->
  forall imports, alike (mapWalk f l imports) (mapWalk g l imports).
Proof.
  induction 1 as [|x rest Hx _ IH]; intros imports; simpl;
    [apply alike_ret|].
  apply alike_bind; [apply Hx|]. intros y y' s.
  apply alike_bind; [apply IH|]. intros ys ys' s'. apply alike_ret.
Qed.

Section AlikeShape.
Variable walk : Codec -> Ctx -> Walk string.
Variables ctx ctx' : Ctx.

Lemma alike_fieldLine field c imports :
  (forall s, alike (walk c (deeper ctx) s) (walk c (deeper ctx') s)) ->
  alike (fieldLine walk ctx field c imports)
        (fieldLine walk ctx' field c imports).
Proof.
  intros Hc. unfold fieldLine.
  apply alike_bind; [apply Hc|]. intros type type' s.
  apply alike_bind.
  - unfold lift. destruct (cardinality field); split; simpl; auto.
  - intros w w' s'. apply alike_ret.
Qed.

Lemma alike_fieldEntry field c imports :
  (forall s, alike (walk (unSet c) (deeper ctx) s)
                   (walk (unSet c) (deeper ctx') s)) ->
  alike (fieldEntry walk ctx field c imports)
        (fieldEntry walk ctx' field c imports).
Proof.
  intros Hc.
  destruct c; simpl in *; try (now apply alike_fieldLine).
  destruct (isMulti (cardinality field));
    [now apply alike_fieldLine | apply alike_refl_throw].
Qed.

Lemma alike_mapFields cs fs :
  Forall (fun c => forall s, alike (walk (unSet c) (deeper ctx) s)
                                   (walk (unSet c) (deeper ctx') s)) cs ->
  forall imports,
    alike (mapFields walk ctx cs fs imports) (mapFields walk ctx' cs fs imports).
Proof.
  intros Hcs. revert fs.
  induction Hcs as [|c cs' Hc _ IH]; intros [|field fs'] imports; simpl;
    try apply alike_ret; try apply alike_refl_throw.
  apply alike_bind; [now apply alike_fieldEntry|]. intros line line' s.
  apply alike_bind; [apply IH|]. intros ls ls' s'. apply alike_ret.
Qed.

Lemma alike_objectShape fs cs imports :
  Forall (fun c => forall s, alike (walk (unSet c) (deeper ctx) s)
                                   (walk (unSet c) (deeper ctx') s)) cs ->
  alike (objectShape walk ctx fs cs imports)
        (objectShape walk ctx' fs cs imports).
Proof.
  intros Hcs. unfold objectShape.
  apply alike_bind; [now apply alike_mapFields|].
  intros ls ls' s. apply alike_ret.
Qed.
End AlikeShape.

Lemma alike_walkCodec getKind codec :
  forall ctx ctx' imports,
    alike (walkCodec getKind codec ctx imports)
          (walkCodec getKind codec ctx' imports).
Proof.
  induction codec using Codec_walk_ind; intros ctx ctx' imports;
    rewrite !walkCodec_unfold; simpl;
    try apply alike_ret; try apply alike_refl_throw.
  - destruct v; [apply alike_ret|].
    apply alike_bind; [|intros; apply alike_ret].
    destruct i; split; reflexivity.
  - apply alike_bind; [|intros; apply alike_ret].
    apply alike_objectShape. eapply Forall_impl; [|eassumption]. simpl. auto.
  - apply alike_bind; [|intros; apply alike_ret].
    apply alike_objectShape. eapply Forall_impl; [|eassumption]. simpl. auto.
  - apply alike_bind; [apply IHcodec | intros; apply alike_ret].
  - apply alike_bind; [|intros; apply alike_ret].
    apply alike_mapWalk. eapply Forall_impl; [|eassumption]. simpl. auto.
  - destruct (isScalar codec); [|apply alike_refl_throw].
    apply alike_bind; [split; reflexivity|]. intros _ _ s.
    apply alike_bind; [apply IHcodec | intros; apply alike_ret].
  - destruct (isScalar codec); [|apply alike_refl_throw].
    apply alike_bind; [split; reflexivity|]. intros _ _ s.
    apply alike_bind; [apply IHcodec | intros; apply alike_ret].
Qed.

(** X5: the context changes only the text of the signature.  Walked under
    any two contexts from the same accumulator, a codec leaves the same
    accumulator, and it either returns a signature under both or throws
    the same exception under both. *)
Theorem walk_context_changes_only_text getKind codec ctx ctx' imports :
  snd (walkCodec getKind codec ctx imports)
  = snd (walkCodec getKind codec ctx' imports) /\
  match fst (walkCodec getKind codec ctx imports),
        fst (walkCodec getKind codec ctx' imports) with
  | Return _, Return _ => True
  | Throw e, Throw e' => e = e'
  | _, _ => False
  end.
Proof. apply alike_walkCodec. Qed.

(** ** The lines of a record *)

Lemma bind_Return {A B} (m : Walk A) (k : A -> Walk B) imports y imports' :
  bind m k imports = (Return y, imports') <->
  exists v s, m imports = (Return v, s) /\ k v s = (Return y, imports').
Proof.
  unfold bind. destruct (m imports) as [[v|e] s].
  - split; [intros H; now exists v, s | intros (v' & s' & [= <- <-] & H); exact H].
  - split; [discriminate | intros (? & ? & [=] & _)].
Qed.

Lemma fieldEntry_lineOf walk ctx field c imports line imports' :
  fieldEntry walk ctx field c imports = (Return line, imports') ->
  lineOf ctx field line.
Proof.
  assert (Hline : forall c',
             fieldLine walk ctx field c' imports = (Return line, imports') ->
             lineOf ctx field line).
  { intros c' H. apply fieldLine_return in H as (type & wrapped & _ & Hw & ->).
    now exists type, wrapped. }
  destruct c; simpl; try apply Hline.
  destruct (isMulti (cardinality field)); [apply Hline | discriminate].
Qed.

Lemma mapFields_lines walk ctx cs fs :
  forall imports lines imports',
    mapFields walk ctx cs fs imports = (Return lines, imports') ->
    Forall2 (lineOf ctx) fs lines.
Proof.
  revert cs.
  induction fs as [|field fs' IH]; intros [|c cs'] imports lines imports';
    simpl; unfold ret, throw; try (intros [= <- _]; constructor);
    try discriminate.
  - intros H.
    apply bind_Return in H as (line & s1 & Hentry & H).
    apply bind_Return in H as (rest & s2 & Hrest & Hret).
    injection Hret as <- _.
    constructor; [eapply fieldEntry_lineOf, Hentry | eapply IH, Hrest].
Qed.

Lemma mapFields_firstn walk ctx cs fs imports :
  mapFields walk ctx cs fs imports
  = mapFields walk ctx (firstn (length fs) cs) fs imports.
Proof.
  revert cs imports.
  induction fs as [|field fs' IH]; intros [|c cs'] imports; simpl;
    try reflexivity.
  unfold bind.
  destruct (fieldEntry walk ctx field c imports) as [[line|e] s1];
    [|reflexivity].
  now rewrite IH.
Qed.

(** X6: a record that walks has one line per field, in field order: the
    signature is the brace block (inside [Readonly<...>] when [readonly])
    of lines that each hold the indent, the quoted name of their field,
    [?] exactly for an AT_MOST_ONE field under [optionalNulls], and a
    signature wrapped with that field's cardinality. *)
Theorem object_has_one_line_per_field
        getKind fields subCodecs ctx imports signature imports' :
  walkCodec getKind (ObjectCodec fields subCodecs) ctx imports
  = (Return signature, imports') ->
  exists lines,
    Forall2 (lineOf ctx) fields lines /\
    length lines = length fields /\
    let shape := "{" ++ newline ++ String.concat newline lines
                     ++ newline ++ indent ctx ++ "}" in
    signature = if readonly ctx then "Readonly<" ++ shape ++ ">" else shape.
Proof.
  rewrite walkCodec_unfold. simpl. intros H.
  apply bind_Return in H as (shape & s1 & Hshape & Hret).
  unfold ret in Hret. injection Hret as <- _.
  unfold objectShape in Hshape.
  apply bind_Return in Hshape as (lines & s2 & Hlines & Hret).
  unfold ret in Hret. injection Hret as <- _.
  exists lines. apply mapFields_lines in Hlines.
  split; [assumption|]. split; [|reflexivity].
  symmetry. eapply Forall2_length, Hlines.
Qed.

Lemma object_has_one_line_per_field_witness :
  let fields := [mkField "id" ONE; mkField "title" AT_MOST_ONE] in
  let subCodecs := [ScalarCodec "string" false None;
                    ScalarCodec "string" false None] in
  let signature :=
    "Readonly<{" ++ newline
    ++ "  " ++ JSON_stringify "id" ++ ": string;" ++ newline
    ++ "  " ++ JSON_stringify "title" ++ "?: string | null;" ++ newline
    ++ "}>" in
  walkCodec sampleKind (ObjectCodec fields subCodecs) argsCtx []
  = (Return signature, []) /\
  exists lines,
    Forall2 (lineOf argsCtx) fields lines /\
    length lines = length fields /\
    let shape := "{" ++ newline ++ String.concat newline lines
                     ++ newline ++ indent argsCtx ++ "}" in
    signature = if readonly argsCtx then "Readonly<" ++ shape ++ ">" else shape.
Proof.
  cbv zeta. split; [reflexivity|].
  apply (object_has_one_line_per_field sampleKind
           [mkField "id" ONE; mkField "title" AT_MOST_ONE]
           [ScalarCodec "string" false None; ScalarCodec "string" false None]
           argsCtx [] _ []).
  reflexivity.
Defined.

(** X7: the fields decide how many sub-codecs are looked at.  Sub-codecs
    past the last field are never walked, whatever they are; a field past
    the last sub-codec, reached after the fields before it are rendered,
    ends the walk in the [TypeError] of calling [getKind] on
    [undefined]. *)
Theorem object_pairs_fields_by_index getKind fields subCodecs ctx imports :
  walkCodec getKind (ObjectCodec fields subCodecs) ctx imports
  = walkCodec getKind
      (ObjectCodec fields (firstn (length fields) subCodecs)) ctx imports /\
  (forall before field after lines imports',
      fields = (before ++ field :: after)%list ->
      length before = length subCodecs ->
      mapFields (walkCodec getKind) ctx subCodecs before imports
      = (Return lines, imports') ->
      walkCodec getKind (ObjectCodec fields subCodecs) ctx imports
      = (Throw (TypeError undefinedCodecMessage), imports')).
Proof.
  split.
  - rewrite !walkCodec_unfold. simpl. unfold objectShape, bind.
    now rewrite <- mapFields_firstn.
  - intros before field after lines imports' -> Hlen Hbefore.
    rewrite walkCodec_unfold. simpl. unfold objectShape, bind.
    rewrite <- (app_nil_r subCodecs).
    rewrite (mapFields_app _ _ _ _ _ _ _ _ _ Hlen Hbefore). reflexivity.
Qed.

Lemma object_pairs_fields_by_index_witness :
  let fields := ([mkField "id" ONE] ++ mkField "name" ONE :: [])%list in
  let subCodecs := [ScalarCodec "Range" true None] in
  fields = ([mkField "id" ONE] ++ mkField "name" ONE :: [])%list /\
  length [mkField "id" ONE] = length subCodecs /\
  walkCodec sampleKind (ObjectCodec fields subCodecs) resultCtx []
  = (Throw (TypeError undefinedCodecMessage), ["Range"]).
Proof.
  cbv zeta. split; [reflexivity|]. split; [reflexivity|].
  destruct (object_pairs_fields_by_index sampleKind
              ([mkField "id" ONE] ++ mkField "name" ONE :: [])%list
              [ScalarCodec "Range" true None] resultCtx []) as [_ H].
  apply H with (before := [mkField "id" ONE]) (field := mkField "name" ONE)
               (after := []) (lines := ["  " ++ JSON_stringify "id" ++ ": Range;"]);
    reflexivity.
Defined.

Lemma namedtuple_mapFields walk ctx names :
  forall cs imports lines imports',
    mapFields walk ctx cs (map (fun name => mkField name ONE) names) imports
    = (Return lines, imports') ->
    length lines = length names /\
    forall i name,
      nth_error names i = Some name ->
      exists subCodec type s1 s2,
        nth_error cs i = Some subCodec /\
        isSet subCodec = false /\
        walk subCodec (deeper ctx) s1 = (Return type, s2) /\
        nth_error lines i
        = Some (indent ctx ++ "  " ++ JSON_stringify name ++ ": " ++ type ++ ";").
Proof.
  induction names as [|n rest IH]; intros [|c cs'] imports lines imports';
    simpl; unfold ret, throw; try discriminate.
  - intros [= <- _]. split; [reflexivity|]. intros [|i] name; discriminate.
  - intros [= <- _]. split; [reflexivity|]. intros [|i] name; discriminate.
  - intros H.
    apply bind_Return in H as (line & s1 & Hentry & H).
    apply bind_Return in H as (more & s2 & Hrest & Hret).
    injection Hret as <- _.
    destruct (IH _ _ _ _ Hrest) as [Hlen Hnth].
    split; [simpl; now rewrite Hlen|].
    intros [|i] name Hname; simpl in Hname.
    + injection Hname as <-.
      destruct (isSet c) eqn:Hset.
      * destruct c; try discriminate; simpl in Hentry; discriminate.
      * rewrite (fieldEntry_not_set _ _ _ _ Hset) in Hentry.
        apply fieldLine_return in Hentry
          as (type & wrapped & Hwalk & [= <-] & ->).
        exists c, type, imports, s1. simpl.
        rewrite andb_false_r. repeat split; assumption.
    + destruct (Hnth i name Hname) as (sub & type & t1 & t2 & H1 & H2 & H3 & H4).
      exists sub, type, t1, t2. repeat split; assumption.
Qed.

(** X8: an element of a named tuple is never optional and never wrapped:
    when a named tuple walks, it has one line per name, and line [i] is
    the indent, the quoted name [i], a colon and the signature that the
    walker returns for sub-codec [i] one indent deeper, as it is, under
    every context; that sub-codec is not a set. *)
Theorem namedtuple_lines_are_plain
        getKind names subCodecs ctx imports signature imports' :
  walkCodec getKind (NamedTupleCodec names subCodecs) ctx imports
  = (Return signature, imports') ->
  exists lines,
    Forall2 (fun name line =>
               exists type,
                 line = indent ctx ++ "  " ++ JSON_stringify name
                        ++ ": " ++ type ++ ";") names lines /\
    length lines = length names /\
    (forall i name,
        nth_error names i = Some name ->
        exists subCodec type,
          nth_error subCodecs i = Some subCodec /\
          isSet subCodec = false /\
          (forall imports0,
              fst (walkCodec getKind subCodec (deeper ctx) imports0)
              = Return type) /\
          nth_error lines i
          = Some (indent ctx ++ "  " ++ JSON_stringify name
                  ++ ": " ++ type ++ ";")) /\
    let shape := "{" ++ newline ++ String.concat newline lines
                     ++ newline ++ indent ctx ++ "}" in
    signature = if readonly ctx then "Readonly<" ++ shape ++ ">" else shape.
Proof.
  rewrite walkCodec_unfold. simpl. intros H.
  apply bind_Return in H as (shape & s1 & Hshape & Hret).
  unfold ret in Hret. injection Hret as <- _.
  unfold objectShape in Hshape.
  apply bind_Return in Hshape as (lines & s2 & Hlines & Hret).
  unfold ret in Hret. injection Hret as <- _.
  exists lines.
  destruct (namedtuple_mapFields _ _ _ _ _ _ _ Hlines) as [Hlen Hnth].
  split; [|split; [exact Hlen | split; [|reflexivity]]].
  - apply mapFields_lines in Hlines. clear -Hlines.
    revert lines Hlines.
    induction names as [|n rest IH]; intros lines H; inversion H; subst;
      constructor; [|now apply IH].
    match goal with
    | Hl : lineOf _ _ _ |- _ => destruct Hl as (type & wrapped & [= <-] & ->)
    end.
    exists type. simpl. now rewrite andb_false_r.
  - intros i name Hname.
    destruct (Hnth i name Hname) as (sub & type & t1 & t2 & H1 & H2 & H3 & H4).
    exists sub, type. repeat split; try assumption.
    intros imports0.
    destruct (walkCodec_imports getKind sub (deeper ctx)) as [ns [_ Hfst]].
    rewrite (Hfst imports0 t1), H3. reflexivity.
Qed.

Lemma namedtuple_lines_are_plain_witness :
  let names := ["x"; "tags"] in
  let subCodecs := [ScalarCodec "number" false None;
                    ArrayCodec (ScalarCodec "string" false None)] in
  let signature :=
    "Readonly<{" ++ newline
    ++ "  " ++ JSON_stringify "x" ++ ": number;" ++ newline
    ++ "  " ++ JSON_stringify "tags" ++ ": readonly string[];" ++ newline
    ++ "}>" in
  walkCodec sampleKind (NamedTupleCodec names subCodecs) argsCtx []
  = (Return signature, []) /\
  exists lines,
    length lines = length names /\
    (forall i name,
        nth_error names i = Some name ->
        exists subCodec type,
          nth_error subCodecs i = Some subCodec /\
          isSet subCodec = false /\
          (forall imports0,
              fst (walkCodec sampleKind subCodec (deeper argsCtx) imports0)
              = Return type) /\
          nth_error lines i
          = Some (indent argsCtx ++ "  " ++ JSON_stringify name
                  ++ ": " ++ type ++ ";")) /\
    let shape := "{" ++ newline ++ String.concat newline lines
                     ++ newline ++ indent argsCtx ++ "}" in
    signature = if readonly argsCtx then "Readonly<" ++ shape ++ ">" else shape.
Proof.
  cbv zeta. split; [reflexivity|].
  destruct (namedtuple_lines_are_plain sampleKind ["x"; "tags"]
              [ScalarCodec "number" false None;
               ArrayCodec (ScalarCodec "string" false None)]
              argsCtx [] _ [] eq_refl)
    as (lines & _ & Hlen & Hnth & Hshape).
  exists lines. split; [exact Hlen|]. split; [exact Hnth | exact Hshape].
Defined.

(** ** Signatures keep what they were built from *)

Lemma string_length_append (a b : string) :
  String.length (a ++ b) = String.length a + String.length b.
Proof. induction a as [|x a IH]; simpl; [reflexivity | now rewrite IH]. Qed.

Lemma append_same_length (a a' b b' : string) :
  String.length a = String.length a' -> a ++ b = a' ++ b' -> a = a' /\ b = b'.
Proof.
  revert a'.
  induction a as [|x a IH]; intros [|x' a'] Hlen; simpl in *;
    try discriminate; [tauto|].
  intros [= -> H]. destruct (IH a' (eq_add_S _ _ Hlen) H) as [-> ->]. tauto.
Qed.

Lemma append_cancel_r (a a' b : string) : a ++ b = a' ++ b -> a = a'.
Proof.
  intros H. apply (append_same_length a a' b b); [|assumption].
  apply (f_equal String.length) in H. rewrite !string_length_append in H. lia.
Qed.

(** X9: the wrapper loses nothing: under one cardinality, two signatures
    that wrap to the same text are the same signature. *)
Theorem wrapper_is_injective (T T' wrapped : string) (c : Cardinality) :
  applyCardinalityToTsType T c = Return wrapped ->
  applyCardinalityToTsType T' c = Return wrapped ->
  T = T'.
Proof.
  destruct c; simpl; try discriminate.
  - intros [= <-] [= <-]. reflexivity.
  - intros [= <-] [= H]. symmetry. eapply append_cancel_r, H.
  - intros [= <-] [= H]. symmetry. eapply append_cancel_r, H.
  - intros [= <-] [= H].
    assert (Hlen : String.length T' = String.length T).
    { apply (f_equal String.length) in H.
      simpl in H. rewrite !string_length_append in H. simpl in H.
      rewrite !string_length_append in H. simpl in H. lia. }
    destruct (append_same_length _ _ _ _ Hlen H) as [-> _]. reflexivity.
Qed.

Lemma wrapper_is_injective_witness :
  applyCardinalityToTsType "string" AT_LEAST_ONE
  = Return "[(string), ...(string)[]]" /\
  (forall T',
      applyCardinalityToTsType T' AT_LEAST_ONE
      = Return "[(string), ...(string)[]]" ->
      "string" = T').
Proof.
  split; [reflexivity|]. intros T' H.
  apply (wrapper_is_injective "string" T' "[(string), ...(string)[]]"
           AT_LEAST_ONE); [reflexivity | exact H].
Defined.

Lemma noControl_append (a b : string) :
  noControl (a ++ b) = noControl a && noControl b.
Proof.
  induction a as [|x a IH]; simpl; [reflexivity|].
  now rewrite IH, andb_assoc.
Qed.

Lemma noControl_quoteJSONChar (c : ascii) : noControl (quoteJSONChar c) = true.
Proof. destruct c as [[] [] [] [] [] [] [] []]; reflexivity. Qed.

Lemma noControl_JSON_stringify (s : string) : noControl (JSON_stringify s) = true.
Proof.
  unfold JSON_stringify. rewrite !noControl_append.
  assert (H : noControl (quoteJSONChars s) = true).
  { induction s as [|c rest IH]; simpl; [reflexivity|].
    now rewrite noControl_append, noControl_quoteJSONChar, IH. }
  now rewrite H.
Qed.

Lemma noControl_concat (sep : string) (l : list string) :
  noControl sep = true ->
  Forall (fun s => noControl s = true) l ->
  noControl (String.concat sep l) = true.
Proof.
  intros Hsep. induction 1 as [|x rest Hx Hrest IH]; simpl; [reflexivity|].
  destruct rest as [|y rest']; [assumption|].
  now rewrite !noControl_append, Hx, Hsep, IH.
Qed.

Lemma unquoteFirst_quoteJSONChar (c : ascii) (rest : string) :
  unquoteFirst (quoteJSONChar c ++ rest) = Some (c, rest).
Proof. destruct c as [[] [] [] [] [] [] [] []]; reflexivity. Qed.

(** A quoted string ends at its closing quote: what follows cannot be
    taken for part of it. *)
Lemma quoteJSONChars_prefix_free (s s' t t' : string) :
  quoteJSONChars s ++ dquote ++ t = quoteJSONChars s' ++ dquote ++ t' ->
  s = s' /\ t = t'.
Proof.
  assert (Hend : forall u, unquoteFirst (dquote ++ u) = None) by reflexivity.
  revert s'.
  induction s as [|c rest IH]; intros [|c' rest']; cbn [quoteJSONChars];
    rewrite ?append_assoc; change (EmptyString ++ ?x) with x.
  - simpl. intros [= ->]. tauto.
  - intros H. apply (f_equal unquoteFirst) in H.
    rewrite Hend, unquoteFirst_quoteJSONChar in H. discriminate.
  - intros H. apply (f_equal unquoteFirst) in H.
    rewrite Hend, unquoteFirst_quoteJSONChar in H. discriminate.
  - intros H. apply (f_equal unquoteFirst) in H.
    rewrite !unquoteFirst_quoteJSONChar in H.
    injection H as -> H. destruct (IH _ H) as [-> ->]. tauto.
Qed.

Lemma JSON_stringify_prefix_free (s s' t t' : string) :
  JSON_stringify s ++ t = JSON_stringify s' ++ t' -> s = s' /\ t = t'.
Proof.
  unfold JSON_stringify. rewrite !append_assoc. simpl.
  intros [= H]. now apply quoteJSONChars_prefix_free.
Qed.

Lemma concat_two (sep x y : string) (l : list string) :
  String.concat sep (x :: y :: l) = x ++ sep ++ String.concat sep (y :: l).
Proof. reflexivity. Qed.

Lemma append_cancel_l (a b b' : string) : a ++ b = a ++ b' -> b = b'.
Proof. induction a as [|x a IH]; simpl; [auto | intros [= H]; auto]. Qed.

Lemma enum_union_injective (vs vs' : list string) :
  String.concat " | " (map JSON_stringify vs) ++ ")"
  = String.concat " | " (map JSON_stringify vs') ++ ")" ->
  vs = vs'.
Proof.
  revert vs'.
  induction vs as [|v rest IH]; intros [|v' rest'].
  - reflexivity.
  - simpl. destruct (map JSON_stringify rest'); discriminate.
  - simpl. destruct (map JSON_stringify rest); discriminate.
  - destruct rest as [|w rest], rest' as [|w' rest'].
    + simpl. intros H. apply JSON_stringify_prefix_free in H as [-> _].
      reflexivity.
    + rewrite !map_cons, concat_two. cbn [map String.concat].
      rewrite append_assoc. intros H.
      apply JSON_stringify_prefix_free in H as [_ H]. discriminate.
    + rewrite !map_cons, concat_two. cbn [map String.concat].
      rewrite append_assoc. intros H.
      apply JSON_stringify_prefix_free in H as [_ H]. discriminate.
    + rewrite (map_cons _ v), (map_cons _ v'), (map_cons _ w), (map_cons _ w').
      rewrite !concat_two, !append_assoc. intros H.
      apply JSON_stringify_prefix_free in H as [-> H].
      apply append_cancel_l in H.
      f_equal. apply IH. rewrite !map_cons. exact H.
Qed.

(** The escapes of [JSON.stringify], character by character: the table of
    the standard for the control characters, backslash-quote and
    backslash-backslash, and every other character copied. *)
Lemma quoteJSONChar_table (c : ascii) :
  quoteJSONChar c
  = if (nat_of_ascii c <? 32)%nat
    then nth (nat_of_ascii c)
           ["\u0000"; "\u0001"; "\u0002"; "\u0003";
            "\u0004"; "\u0005"; "\u0006"; "\u0007";
            "\b"; "\t"; "\n"; "\u000b"; "\f"; "\r"; "\u000e"; "\u000f";
            "\u0010"; "\u0011"; "\u0012"; "\u0013";
            "\u0014"; "\u0015"; "\u0016"; "\u0017";
            "\u0018"; "\u0019"; "\u001a"; "\u001b";
            "\u001c"; "\u001d"; "\u001e"; "\u001f"] ""
    else if (nat_of_ascii c =? 34)%nat then backslash ++ dquote
    else if (nat_of_ascii c =? 92)%nat then backslash ++ backslash
    else String c EmptyString.
Proof. destruct c as [[] [] [] [] [] [] [] []]; reflexivity. Qed.

(** C7: an enum scalar walks to the parenthesised union of its values in
    declared order, each rendered by [JSON.stringify], under every context
    and accumulator.  The rendering of a value is fixed for every value:
    it stands between two double quotes, its characters are rendered one
    by one in order, a control character as the escape the standard's
    table gives it, the double quote and the backslash behind a backslash,
    every other character as itself (so a value with nothing to escape is
    copied); the literal holds no control character, and it ends at its
    closing quote, so that the value can be read back from it.  Values
    [a], [b] give [("a" | "b")]. *)
Theorem enum_scalar_signature getKind tsType importedType values ctx imports :
  walkCodec getKind (ScalarCodec tsType importedType (Some values)) ctx imports
  = (Return ("(" ++ String.concat " | " (map JSON_stringify values) ++ ")"),
     imports) /\
  (forall v, plainString v = true -> JSON_stringify v = dquote ++ v ++ dquote) /\
  walkCodec getKind (ScalarCodec tsType importedType (Some ["a"; "b"])) ctx imports
  = (Return ("(" ++ dquote ++ "a" ++ dquote ++ " | "
                 ++ dquote ++ "b" ++ dquote ++ ")"), imports) /\
  (forall ctx',
      walkCodec getKind (ScalarCodec tsType importedType (Some values)) ctx' imports
      = walkCodec getKind (ScalarCodec tsType importedType (Some values)) ctx imports) /\
  (forall v, JSON_stringify v = dquote ++ quoteJSONChars v ++ dquote) /\
  quoteJSONChars "" = "" /\
  (forall c rest,
      quoteJSONChars (String c rest) = quoteJSONChar c ++ quoteJSONChars rest) /\
  (forall c,
      (nat_of_ascii c < 32)%nat ->
      quoteJSONChar c
      = nth (nat_of_ascii c)
          ["\u0000"; "\u0001"; "\u0002"; "\u0003";
           "\u0004"; "\u0005"; "\u0006"; "\u0007";
           "\b"; "\t"; "\n"; "\u000b"; "\f"; "\r"; "\u000e"; "\u000f";
           "\u0010"; "\u0011"; "\u0012"; "\u0013";
           "\u0014"; "\u0015"; "\u0016"; "\u0017";
           "\u0018"; "\u0019"; "\u001a"; "\u001b";
           "\u001c"; "\u001d"; "\u001e"; "\u001f"] "") /\
  quoteJSONChar (ascii_of_nat 34) = backslash ++ dquote /\
  quoteJSONChar (ascii_of_nat 92) = backslash ++ backslash /\
  (forall c,
      (32 <= nat_of_ascii c)%nat ->
      nat_of_ascii c <> 34%nat -> nat_of_ascii c <> 92%nat ->
      quoteJSONChar c = String c EmptyString) /\
  (forall v, noControl (JSON_stringify v) = true) /\
  (forall v v' tail tail',
      JSON_stringify v ++ tail = JSON_stringify v' ++ tail' ->
      v = v' /\ tail = tail') /\
  walkCodec getKind
    (ScalarCodec tsType importedType (Some ["a" ++ dquote ++ "b"; backslash]))
    ctx imports
  = (Return ("(" ++ dquote ++ "a" ++ backslash ++ dquote ++ "b" ++ dquote
                 ++ " | " ++ dquote ++ backslash ++ backslash ++ dquote ++ ")"),
     imports) /\
  dquote = String "034"%char EmptyString /\
  backslash = String "092"%char EmptyString.
Proof.
  split; [reflexivity|].
  split; [intros v Hv; unfold JSON_stringify; now rewrite quoteJSONChars_plain|].
  split; [reflexivity|]. split; [reflexivity|]. split; [reflexivity|].
  split; [reflexivity|]. split; [reflexivity|].
  split.
  { intros c Hc. rewrite quoteJSONChar_table.
    apply Nat.ltb_lt in Hc. now rewrite Hc. }
  split; [reflexivity|]. split; [reflexivity|].
  split.
  { intros c H32 H34 H92. rewrite quoteJSONChar_table.
    apply Nat.ltb_ge in H32. apply Nat.eqb_neq in H34, H92.
    now rewrite H32, H34, H92. }
  split; [apply noControl_JSON_stringify|].
  split; [apply JSON_stringify_prefix_free|].
  repeat split.
Qed.

Lemma enum_scalar_signature_witness :
  let quoted := "a" ++ dquote ++ "b" in
  let feed := ascii_of_nat 10 in
  walkCodec sampleKind
    (ScalarCodec "string" false (Some [quoted; "Movie"])) argsCtx []
  = (Return ("(" ++ dquote ++ "a" ++ backslash ++ dquote ++ "b" ++ dquote
                 ++ " | " ++ dquote ++ "Movie" ++ dquote ++ ")"), []) /\
  plainString "Movie" = true /\
  JSON_stringify "Movie" = dquote ++ "Movie" ++ dquote /\
  (nat_of_ascii feed < 32)%nat /\
  quoteJSONChar feed = "\n" /\
  (32 <= nat_of_ascii "M"%char)%nat /\
  nat_of_ascii "M"%char <> 34%nat /\
  nat_of_ascii "M"%char <> 92%nat /\
  quoteJSONChar "M"%char = "M" /\
  JSON_stringify quoted ++ " | x" = JSON_stringify quoted ++ " | x" /\
  quoted = quoted.
Proof.
  cbv zeta.
  destruct (enum_scalar_signature sampleKind "string" false
              ["a" ++ dquote ++ "b"; "Movie"] argsCtx [])
    as (Hwalk & Hplain & _ & _ & _ & _ & _ & Hcontrol & _ & _ & Hcopy & _
        & Hreads & _).
  assert (Hfeed : (nat_of_ascii (ascii_of_nat 10) < 32)%nat)
    by (apply Nat.ltb_lt; reflexivity).
  assert (H32 : (32 <= nat_of_ascii "M"%char)%nat)
    by (apply Nat.leb_le; reflexivity).
  assert (H34 : nat_of_ascii "M"%char <> 34%nat)
    by (apply Nat.eqb_neq; reflexivity).
  assert (H92 : nat_of_ascii "M"%char <> 92%nat)
    by (apply Nat.eqb_neq; reflexivity).
  split; [rewrite Hwalk; reflexivity|].
  split; [reflexivity|].
  split; [apply Hplain; reflexivity|].
  split; [exact Hfeed|].
  split; [rewrite (Hcontrol _ Hfeed); reflexivity|].
  split; [exact H32|]. split; [exact H34|]. split; [exact H92|].
  split; [exact (Hcopy _ H32 H34 H92)|].
  split; [reflexivity|].
  exact (proj1 (Hreads ("a" ++ dquote ++ "b") ("a" ++ dquote ++ "b")
                  " | x" " | x" eq_refl)).
Defined.

(** X10: the signature of an enum tells its values: two enum scalars walk
    to the same signature only when they list the same values in the same
    order. *)
Theorem enum_signature_is_injective
        getKind tsType tsType' imported imported' values values'
        ctx ctx' imports imports' :
  fst (walkCodec getKind (ScalarCodec tsType imported (Some values)) ctx imports)
  = fst (walkCodec getKind (ScalarCodec tsType' imported' (Some values'))
           ctx' imports') ->
  values = values'.
Proof.
  simpl. intros [= H]. now apply enum_union_injective.
Qed.

Lemma enum_signature_is_injective_witness :
  fst (walkCodec sampleKind (ScalarCodec "string" false (Some ["a"; "b"]))
         argsCtx [])
  = fst (walkCodec sampleKind (ScalarCodec "Color" true (Some ["a"; "b"]))
           resultCtx ["Range"]) /\
  ["a"; "b"] = ["a"; "b"].
Proof.
  split; [reflexivity|].
  apply (enum_signature_is_injective sampleKind "string" "Color" false true
           ["a"; "b"] ["a"; "b"] argsCtx resultCtx [] ["Range"]).
  reflexivity.
Defined.

(** X11: the signature of an enum is one line of printable text: no
    character below the space occurs in it, whatever the values hold. *)
Theorem enum_signature_is_one_line
        getKind tsType imported values ctx imports signature imports' :
  walkCodec getKind (ScalarCodec tsType imported (Some values)) ctx imports
  = (Return signature, imports') ->
  noControl signature = true.
Proof.
  simpl. unfold ret. intros [= <- _].
  cbn [noControl]. rewrite noControl_append.
  rewrite noControl_concat; [reflexivity | reflexivity |].
  apply Forall_forall. intros s Hs.
  apply in_map_iff in Hs as (v & <- & _). apply noControl_JSON_stringify.
Qed.

Lemma enum_signature_is_one_line_witness :
  let value := String (ascii_of_nat 10) "x" in
  walkCodec sampleKind (ScalarCodec "string" false (Some [value])) argsCtx []
  = (Return ("(" ++ dquote ++ backslash ++ "nx" ++ dquote ++ ")"), []) /\
  noControl value = false /\
  noControl ("(" ++ dquote ++ backslash ++ "nx" ++ dquote ++ ")") = true.
Proof.
  cbv zeta. split; [reflexivity|]. split; [reflexivity|].
  apply (enum_signature_is_one_line sampleKind "string" false
           [String (ascii_of_nat 10) "x"] argsCtx [] _ []).
  reflexivity.
Defined.

(** * Further properties of the analyzer *)

Lemma walkCodec_returns_walkable getKind codec ctx imports :
  walkable codec = true ->
  exists type imports',
    walkCodec getKind codec ctx imports = (Return type, imports').
Proof.
  intros Hw.
  pose proof (returns_walkCodec getKind codec ctx imports) as H.
  unfold returns in H. rewrite Hw in H.
  destruct (walkCodec getKind codec ctx imports) as [[type|e] s];
    [eauto | discriminate].
Qed.

Lemma walkCodec_Return_walkable getKind codec ctx imports type imports' :
  walkCodec getKind codec ctx imports = (Return type, imports') ->
  walkable codec = true.
Proof.
  intros Hr.
  pose proof (returns_walkCodec getKind codec ctx imports) as H.
  unfold returns in H. now rewrite Hr in H.
Qed.

(** X12: the analyzer returns exactly when the negotiation returns, both
    codecs are trees the walker accepts, and the negotiated cardinality is
    one of the four named ones. *)
Theorem analyzeQuery_returns_iff
        getKind (Client : Type) parseQuery (client : Client) query :
  (exists r, analyzeQuery getKind Client parseQuery client query = Return r) <->
  exists cardinality inCodec outCodec,
    parseQuery client query = Return (cardinality, inCodec, outCodec) /\
    walkable inCodec = true /\
    walkable outCodec = true /\
    knownCardinality cardinality = true.
Proof.
  unfold analyzeQuery.
  destruct (parseQuery client query) as [[[card inCodec] outCodec]|e].
  - split.
    + intros [r H].
      destruct (walkCodec getKind inCodec argsCtx newSet) as [[args|e] s1] eqn:Hin;
        [|discriminate].
      destruct (walkCodec getKind outCodec resultCtx s1) as [[type|e] s2] eqn:Hout;
        [|discriminate].
      exists card, inCodec, outCodec. split; [reflexivity|].
      split; [eapply walkCodec_Return_walkable, Hin|].
      split; [eapply walkCodec_Return_walkable, Hout|].
      destruct card; try reflexivity. discriminate.
    + intros (card' & inC & outC & [= <- <- <-] & Hin & Hout & Hcard).
      destruct (walkCodec_returns_walkable getKind _ argsCtx newSet Hin)
        as (args & s1 & ->).
      destruct (walkCodec_returns_walkable getKind _ resultCtx s1 Hout)
        as (type & s2 & ->).
      destruct card; try discriminate; eexists; reflexivity.
  - split; [intros [r [=]] | intros (? & ? & ? & [=] & _)].
Qed.

Lemma analyzeQuery_returns_iff_witness :
  let parse := fun (_ : unit) (_ : string) =>
                 Return (MANY, NullCodec,
                         ObjectCodec [mkField "id" ONE]
                           [ScalarCodec "string" false None]) in
  (exists cardinality inCodec outCodec,
      parse tt "select User { id }" = Return (cardinality, inCodec, outCodec) /\
      walkable inCodec = true /\
      walkable outCodec = true /\
      knownCardinality cardinality = true) /\
  exists r, analyzeQuery sampleKind unit parse tt "select User { id }" = Return r.
Proof.
  cbv zeta.
  assert (H : exists cardinality inCodec outCodec,
             (fun (_ : unit) (_ : string) =>
                Return (MANY, NullCodec,
                        ObjectCodec [mkField "id" ONE]
                          [ScalarCodec "string" false None]))
               tt "select User { id }"
             = Return (cardinality, inCodec, outCodec) /\
             walkable inCodec = true /\
             walkable outCodec = true /\
             knownCardinality cardinality = true).
  { eexists _, _, _. repeat split. }
  split; [exact H|].
  apply (analyzeQuery_returns_iff sampleKind unit
           (fun _ _ => Return (MANY, NullCodec,
                               ObjectCodec [mkField "id" ONE]
                                 [ScalarCodec "string" false None]))
           tt "select User { id }").
  exact H.
Defined.

(** X13: the analyzer throws the exception of its first failing stage: the
    negotiation's; else the input walk's, whatever the output codec is;
    else the output walk's; else, with both signatures at hand, the
    wrapper's "unexpected cardinality" for a cardinality outside the four. *)
Theorem analyzeQuery_throws_first_failure
        getKind (Client : Type) parseQuery (client : Client) query :
  (forall e,
      parseQuery client query = Throw e ->
      analyzeQuery getKind Client parseQuery client query = Throw e) /\
  (forall cardinality inCodec outCodec,
      parseQuery client query = Return (cardinality, inCodec, outCodec) ->
      (forall e imports1,
          walkCodec getKind inCodec argsCtx newSet = (Throw e, imports1) ->
          analyzeQuery getKind Client parseQuery client query = Throw e) /\
      (forall e imports2,
          walkable inCodec = true ->
          walkCodec getKind outCodec resultCtx newSet = (Throw e, imports2) ->
          analyzeQuery getKind Client parseQuery client query = Throw e) /\
      (forall value,
          walkable inCodec = true ->
          walkable outCodec = true ->
          cardinality = OtherCardinality value ->
          analyzeQuery getKind Client parseQuery client query
          = Throw (Error ("unexpected cardinality: "
                          ++ NilZero.string_of_uint (N.to_uint value))))).
Proof.
  unfold analyzeQuery. split.
  - intros e ->. reflexivity.
  - intros card inCodec outCodec ->. split; [|split].
    + intros e s1 ->. reflexivity.
    + intros e s2 Hin Hout.
      destruct (walkCodec_returns_walkable getKind _ argsCtx newSet Hin)
        as (args & s1 & ->).
      destruct (walkCodec_writerLike getKind outCodec resultCtx)
        as [r [names Hw]].
      rewrite Hw in Hout. injection Hout as -> _.
      rewrite Hw. reflexivity.
    + intros value Hin Hout ->.
      destruct (walkCodec_returns_walkable getKind _ argsCtx newSet Hin)
        as (args & s1 & ->).
      destruct (walkCodec_returns_walkable getKind _ resultCtx s1 Hout)
        as (type & s2 & ->).
      reflexivity.
Qed.

Lemma analyzeQuery_throws_first_failure_witness :
  let parse := fun (_ : unit) (_ : string) =>
                 Return (OtherCardinality 110, NullCodec, NullCodec) in
  parse tt "create type T" = Return (OtherCardinality 110, NullCodec, NullCodec) /\
  walkable NullCodec = true /\
  analyzeQuery sampleKind unit parse tt "create type T"
  = Throw (Error "unexpected cardinality: 110").
Proof.
  cbv zeta. split; [reflexivity|]. split; [reflexivity|].
  destruct (analyzeQuery_throws_first_failure sampleKind unit
              (fun _ _ => Return (OtherCardinality 110, NullCodec, NullCodec))
              tt "create type T") as [_ H].
  destruct (H _ _ _ eq_refl) as (_ & _ & Hcard).
  apply (Hcard 110%N); reflexivity.
Defined.

(** * Properties of the negotiation *)

Section NegotiationProofs.
Variable World : Type.
Variables Client Pool Holder Connection Options Session OutputFormat : Type.
Variable pool : Client -> Pool.
Variable defaultOptions : Options.
Variable defaultSession : Session.
Variable BINARY : OutputFormat.
Variable acquireHolder : Pool -> Options -> Async World Holder.
Variable _getConnection : Holder -> Async World Connection.
Variable _parse :
  Connection -> string -> OutputFormat -> Cardinality -> Session ->
  Async World (Cardinality * Codec * Codec).
Variable release : Holder -> Async World unit.

(** X14: [parseQuery] leaks no holder.  When acquiring lends one holder
    (and none on failure), [release] takes one back, and the connection
    steps lend or take none, the number of holders lent out is the same
    after [parseQuery] as before it, on every path: a value, an exception
    of any step, or a failed acquisition. *)
Theorem parseQuery_leaks_no_holder (lent : World -> nat) :
  (forall p o world holder world',
      acquireHolder p o world = (Return holder, world') ->
      lent world' = S (lent world)) ->
  (forall p o world e world',
      acquireHolder p o world = (Throw e, world') ->
      lent world' = lent world) ->
  (forall holder world, lent (snd (_getConnection holder world)) = lent world) ->
  (forall cxn query format hint session world,
      lent (snd (_parse cxn query format hint session world)) = lent world) ->
  (forall holder world, lent (snd (release holder world)) = pred (lent world)) ->
  forall client query world,
    lent (snd (parseQuery World Client Pool Holder Connection Options Session
      OutputFormat pool defaultOptions defaultSession BINARY
      acquireHolder _getConnection _parse release client query world))
    = lent world.
Proof.
  intros Hok Hfail Hcxn Hparse Hrel client query world.
  unfold parseQuery, andThen, tryFinally.
  destruct (acquireHolder (pool client) defaultOptions world)
    as [[holder|e] w1] eqn:Hacq; simpl.
  - apply Hok in Hacq.
    pose proof (Hcxn holder w1) as H2.
    destruct (_getConnection holder w1) as [[cxn|e] w2]; simpl in H2.
    + pose proof (Hparse cxn query BINARY MANY defaultSession w2) as H3.
      destruct (_parse cxn query BINARY MANY defaultSession w2) as [r w3];
        simpl in H3.
      pose proof (Hrel holder w3) as H4.
      destruct (release holder w3) as [[u|e] w4]; simpl in *; lia.
    + pose proof (Hrel holder w2) as H4.
      destruct (release holder w2) as [[u|e'] w4]; simpl in *; lia.
  - now apply Hfail in Hacq.
Qed.

(** X15: [parseQuery] returns a value exactly when a holder was acquired,
    it gave a connection, [_parse] on that connection, asked with the
    query as given, the binary format and the MANY hint, returned that
    value, and the release of the holder then completed. *)
Theorem parseQuery_returns_iff client query world value world' :
  parseQuery World Client Pool Holder Connection Options Session
      OutputFormat pool defaultOptions defaultSession BINARY
      acquireHolder _getConnection _parse release client query world = (Return value, world') <->
  exists holder world1 cxn world2 world3 u,
    acquireHolder (pool client) defaultOptions world = (Return holder, world1) /\
    _getConnection holder world1 = (Return cxn, world2) /\
    _parse cxn query BINARY MANY defaultSession world2 = (Return value, world3) /\
    release holder world3 = (Return u, world').
Proof.
  unfold parseQuery, andThen, tryFinally. split.
  - destruct (acquireHolder (pool client) defaultOptions world)
      as [[holder|e] w1] eqn:Hacq; [|discriminate].
    destruct (_getConnection holder w1) as [[cxn|e] w2] eqn:Hcxn.
    + destruct (_parse cxn query BINARY MANY defaultSession w2) as [r w3]
        eqn:Hparse.
      destruct (release holder w3) as [[u|e] w4] eqn:Hrel; [|discriminate].
      intros [= -> <-]. now exists holder, w1, cxn, w2, w3, u.
    + destruct (release holder w2) as [[u|e'] w4]; discriminate.
  - intros (holder & w1 & cxn & w2 & w3 & u & -> & -> & -> & ->). reflexivity.
Qed.

(** X16: [parseQuery] throws [e] exactly in one of three ways: acquiring a
    holder threw [e], and then nothing else ran; or the release of the
    holder threw [e], whatever the connection steps had come to; or a
    connection step threw [e] and the release then completed. *)
Theorem parseQuery_throws_iff client query world e world' :
  parseQuery World Client Pool Holder Connection Options Session
      OutputFormat pool defaultOptions defaultSession BINARY
      acquireHolder _getConnection _parse release client query world = (Throw e, world') <->
  acquireHolder (pool client) defaultOptions world = (Throw e, world') \/
  exists holder world1 completion world2,
    acquireHolder (pool client) defaultOptions world = (Return holder, world1) /\
    andThen World (_getConnection holder)
      (fun cxn => _parse cxn query BINARY MANY defaultSession) world1
    = (completion, world2) /\
    (release holder world2 = (Throw e, world') \/
     exists u, release holder world2 = (Return u, world') /\
               completion = Throw e).
Proof.
  unfold parseQuery. unfold andThen at 1. unfold tryFinally.
  destruct (acquireHolder (pool client) defaultOptions world)
    as [[holder|e0] w1].
  - destruct (andThen World (_getConnection holder)
                (fun cxn => _parse cxn query BINARY MANY defaultSession) w1)
      as [completion w2] eqn:Hbody.
    split.
    + intros H. right. exists holder, w1, completion, w2.
      split; [reflexivity|]. split; [exact Hbody|].
      destruct (release holder w2) as [[u|e'] w3].
      * injection H as -> <-. right. now exists u.
      * injection H as <- <-. now left.
    + intros [[=] | (h & w1' & c & w2' & [= <- <-] & Hbody' & Hrel)].
      rewrite Hbody in Hbody'. injection Hbody' as <- <-.
      destruct Hrel as [-> | (u & -> & ->)]; reflexivity.
  - split.
    + intros [= <- <-]. now left.
    + intros [[= <- <-] | (? & ? & ? & ? & [=] & _)]. reflexivity.
Qed.
End NegotiationProofs.

Lemma parseQuery_leaks_no_holder_witness :
  sampleParseQuery tt "" 0 = (Throw (Error "empty query"), 0) /\
  snd (sampleParseQuery tt "" 0) = 0.
Proof.
  split; [reflexivity|].
  apply (parseQuery_leaks_no_holder nat unit unit unit unit unit unit unit
           (fun _ => tt) tt tt tt
           sampleAcquire sampleConnection sampleParse sampleRelease
           (fun lent => lent)).
  - intros p o world holder world' [= _ <-]. reflexivity.
  - intros p o world e world' [=].
  - reflexivity.
  - intros cxn query format hint session world. unfold sampleParse.
    destruct (String.eqb query ""); reflexivity.
  - reflexivity.
Defined.

Lemma parseQuery_returns_iff_witness :
  sampleParseQuery tt "select 1" 0
  = (Return (ONE, NullCodec, ScalarCodec "number" false None), 0) /\
  exists holder world1 cxn world2 world3 u,
    sampleAcquire tt tt 0 = (Return holder, world1) /\
    sampleConnection holder world1 = (Return cxn, world2) /\
    sampleParse cxn "select 1" tt MANY tt world2
    = (Return (ONE, NullCodec, ScalarCodec "number" false None), world3) /\
    sampleRelease holder world3 = (Return u, 0).
Proof.
  split; [reflexivity|].
  apply (parseQuery_returns_iff nat unit unit unit unit unit unit unit
           (fun _ => tt) tt tt tt
           sampleAcquire sampleConnection sampleParse sampleRelease
           tt "select 1" 0).
  reflexivity.
Defined.

Lemma parseQuery_throws_iff_witness :
  sampleAcquire tt tt 0 = (Return tt, 1) /\
  sampleRelease tt 1 = (Return tt, 0) /\
  sampleParseQuery tt "" 0 = (Throw (Error "empty query"), 0).
Proof.
  split; [reflexivity|]. split; [reflexivity|].
  apply (parseQuery_throws_iff nat unit unit unit unit unit unit unit
           (fun _ => tt) tt tt tt
           sampleAcquire sampleConnection sampleParse sampleRelease
           tt "" 0).
  right. exists tt, 1, (Throw (Error "empty query")), 1.
  split; [reflexivity|]. split; [reflexivity|].
  right. exists tt. split; reflexivity.
Defined.
